(** * A shallow embedding of [src/core/vdom.js]

    The virtual-DOM utility of make.js: a node constructor, a mount
    operation, a re-render operation, an attribute diff and a
    diff-and-patch operation.  The JavaScript functions are embedded as
    functions of a small state-and-exception monad over a [World] that
    holds the JavaScript objects of the virtual tree, the live display
    tree and the list of display-tree calls made so far. *)

From Stdlib Require Import Ascii.
From stdpp Require Import gmap strings list fin_maps.

Open Scope string_scope.
Open Scope list_scope.
Open Scope nat_scope.
Set Warnings "-register-all".

(** ** JavaScript values of the virtual tree *)

(** A value of type [VNode|String]: a primitive string or a reference to
    an object [{ type, props, children }].  Two references are the same
    object exactly when their addresses are equal.  Text is a plain
    string value; [String] wrapper objects are not part of the data
    model. *)
Inductive VNode :=
  | VText (s : string)
  | VRef (a : nat).

(** The [props] argument: a plain object with string values, or absent
    ([undefined]). *)
Definition JsProps := option (gmap string string).

(** The [children] argument: [Array<VNode>|String]. *)
Inductive JsChildren :=
  | ChildText (s : string)
  | ChildList (l : list VNode).

(** The object literal [{ type, props, children }]. *)
Record VObject := mkVObject {
  type : string;
  props : JsProps;
  children : JsChildren
}.

Global Instance VNode_eq_dec : EqDecision VNode.
Proof. solve_decision. Defined.

(** ** The live display tree *)

(** A text node with its data, or an element with its local name (in an
    HTML document the [tagName] of an element is the upper-case form of
    its local name). *)
Inductive NodeKind :=
  | TextNode (data : string)
  | ElementNode (localName : string).

Record LiveNode := mkLiveNode {
  nodeKind : NodeKind;
  attributes : gmap string string;
  childNodes : list nat
}.

(** The calls made on the display-tree API, in order. *)
Inductive DomCall :=
  | CreateTextNode (data : string)
  | CreateElement (tag : string)
  | SetAttribute (e : nat) (name value : string)
  | RemoveAttribute (e : nat) (name : string)
  | AppendChild (parent child : nat)
  | ReplaceChild (parent newChild oldChild : nat)
  | RemoveChild (parent child : nat)
  | SetInnerHTML (e : nat) (html : string).

Global Instance NodeKind_eq_dec : EqDecision NodeKind.
Proof. solve_decision. Defined.
Global Instance LiveNode_eq_dec : EqDecision LiveNode.
Proof. solve_decision. Defined.
Global Instance DomCall_eq_dec : EqDecision DomCall.
Proof. solve_decision. Defined.

(** The state: virtual objects by address, live nodes by reference, and
    the log of display-tree calls (most recent last). *)
Record World := mkWorld {
  vheap : list VObject;
  nodes : list LiveNode;
  calls : list DomCall
}.

Definition set_nodes (d : list LiveNode) (w : World) : World :=
  mkWorld (vheap w) d (calls w).

Definition log (c : DomCall) (w : World) : World :=
  mkWorld (vheap w) (nodes w) (calls w ++ [c]).

(** ** Exceptions and the monad *)

Inductive JsError :=
  | TypeError
  | ReferenceError
  | HierarchyRequestError
  | NotFoundError
  | InvalidCharacterError.

(** [Abort] is not a JavaScript behaviour: it marks a run of the model
    that ran out of fuel or followed a reference that names no object. *)
Inductive Outcome (A : Type) :=
  | Return (a : A) (w : World)
  | Throw (e : JsError) (w : World)
  | Abort.
Arguments Return {A} a w.
Arguments Throw {A} e w.
Arguments Abort {A}.

Definition M (A : Type) : Type := World → Outcome A.

Definition ret {A} (a : A) : M A := λ w, Return a w.
Definition throw {A} (e : JsError) : M A := λ w, Throw e w.
Definition abort {A} : M A := λ _, Abort.
Definition bind {A B} (m : M A) (k : A → M B) : M B :=
  λ w, match m w with
       | Return a w' => k a w'
       | Throw e w' => Throw e w'
       | Abort => Abort
       end.

Notation "x <- m ;; k" := (bind m (λ x, k))
  (at level 100, m at next level, right associativity, only parsing).
Notation "m ;;; k" := (bind m (λ _, k))
  (at level 100, right associativity, only parsing).

(** The world an outcome ends in, when the run is a JavaScript run. *)
Definition final {A} (o : Outcome A) : option World :=
  match o with
  | Return _ w => Some w
  | Throw _ w => Some w
  | Abort => None
  end.

(** [array.forEach(f)] *)
Fixpoint forEach {A} (f : A → M unit) (l : list A) : M unit :=
  match l with
  | [] => ret tt
  | x :: l' => f x ;;; forEach f l'
  end.

(** [array.forEach((x, index) => f x index)], counting from [i]. *)
Fixpoint forEachFrom {A} (i : nat) (f : A → nat → M unit) (l : list A) : M unit :=
  match l with
  | [] => ret tt
  | x :: l' => f x i ;;; forEachFrom (S i) f l'
  end.

(** ** Names in an HTML document

    The module runs in an HTML document (the page of the usage example).
    There [document.createElement] and [setAttribute] reject a name that
    is not valid with an [InvalidCharacterError] and convert a valid name
    to ASCII lower case; [removeAttribute] converts the name too.
    Validity is that of the DOM Standard: "valid element local name" and
    "valid attribute local name".  Strings are sequences of bytes, so a
    code point from U+0080 on is a sequence of bytes from 128 on. *)

Definition code (c : ascii) : nat := nat_of_ascii c.

Definition isUpper (c : ascii) : bool := (65 <=? code c) && (code c <=? 90).
Definition isLower (c : ascii) : bool := (97 <=? code c) && (code c <=? 122).
Definition isAlpha (c : ascii) : bool := isUpper c || isLower c.
Definition isDigit (c : ascii) : bool := (48 <=? code c) && (code c <=? 57).

(** ASCII whitespace: TAB, LF, FF, CR and SPACE. *)
Definition isWhitespace (c : ascii) : bool :=
  (code c =? 9) || (code c =? 10) || (code c =? 12) || (code c =? 13) || (code c =? 32).

Definition lowerChar (c : ascii) : ascii :=
  if isUpper c then ascii_of_nat (code c + 32) else c.

(** "ASCII lowercase" of a string. *)
Fixpoint asciiLowercase (s : string) : string :=
  match s with
  | EmptyString => EmptyString
  | String c s' => String (lowerChar c) (asciiLowercase s')
  end.

Fixpoint allChars (p : ascii → bool) (s : string) : bool :=
  match s with
  | EmptyString => true
  | String c s' => p c && allChars p s'
  end.

(** A character no element name that starts with a letter may contain:
    ASCII whitespace, NULL, [/] or [>]. *)
Definition elementForbidden (c : ascii) : bool :=
  isWhitespace c || (code c =? 0) || (code c =? 47) || (code c =? 62).

(** A character an element name that does not start with a letter may
    continue with: a letter, a digit, [-], [.], [:], [_] or a code point
    from U+0080 on. *)
Definition elementContinue (c : ascii) : bool :=
  isAlpha c || isDigit c || (code c =? 45) || (code c =? 46) || (code c =? 58)
  || (code c =? 95) || (128 <=? code c).

(** "Valid element local name". *)
Definition validElementName (s : string) : bool :=
  match s with
  | EmptyString => false
  | String c s' =>
      if isAlpha c then allChars (λ x, negb (elementForbidden x)) s'
      else if (code c =? 58) || (code c =? 95) || (128 <=? code c)
           then allChars elementContinue s'
           else false
  end.

(** "Valid attribute local name": not empty, and no ASCII whitespace,
    NULL, [/], [=] or [>]. *)
Definition validAttributeName (s : string) : bool :=
  match s with
  | EmptyString => false
  | String _ _ =>
      allChars (λ x, negb (elementForbidden x || (code x =? 61))) s
  end.

(** The ASCII names of the XML [Name] production, which the DOM Standard
    required of both kinds of name before it adopted the two definitions
    above; every such name is valid under either rule. *)
Definition xmlNameStart (c : ascii) : bool :=
  isAlpha c || (code c =? 58) || (code c =? 95).

Definition xmlNameChar (c : ascii) : bool :=
  xmlNameStart c || isDigit c || (code c =? 45) || (code c =? 46).

Definition isXmlAsciiName (s : string) : bool :=
  match s with
  | EmptyString => false
  | String c s' => xmlNameStart c && allChars xmlNameChar s'
  end.

(** The names the properties below are stated for: ASCII names of the
    [Name] production without upper-case letters, such as ["div"],
    ["class"] or ["data-id"].  Every host accepts them and keeps them as
    they are. *)
Definition htmlName (s : string) : bool :=
  isXmlAsciiName s && allChars (λ c, negb (isUpper c)) s.

(** ** The display-tree API (the host)

    The host is the display tree of an HTML document, reduced to the
    capabilities the module uses.  It hands out node references in
    allocation order, and the log records the calls that took effect.
    Every node given to [appendChild] or as the new child of
    [replaceChild] by this module has just been created and has no
    parent. *)

Definition alloc (n : LiveNode) : M nat :=
  λ w, Return (length (nodes w)) (set_nodes (nodes w ++ [n]) w).

Definition logCall (c : DomCall) : M unit := λ w, Return tt (log c w).

Definition getNode (id : nat) : M LiveNode :=
  λ w, match nodes w !! id with
       | Some n => Return n w
       | None => Abort
       end.

Definition putNode (id : nat) (n : LiveNode) : M unit :=
  λ w, Return tt (set_nodes (<[id := n]> (nodes w)) w).

Definition createTextNode (data : string) : M nat :=
  logCall (CreateTextNode data) ;;;
  alloc (mkLiveNode (TextNode data) ∅ []).

Definition createElement (tag : string) : M nat :=
  if validElementName tag then
    logCall (CreateElement tag) ;;;
    alloc (mkLiveNode (ElementNode (asciiLowercase tag)) ∅ [])
  else throw InvalidCharacterError.

Definition setAttribute (e : nat) (name value : string) : M unit :=
  n <- getNode e ;;
  match nodeKind n with
  | TextNode _ => throw TypeError
  | ElementNode _ =>
      if validAttributeName name then
        logCall (SetAttribute e name value) ;;;
        putNode e (mkLiveNode (nodeKind n)
                     (<[asciiLowercase name := value]> (attributes n)) (childNodes n))
      else throw InvalidCharacterError
  end.

Definition removeAttribute (e : nat) (name : string) : M unit :=
  n <- getNode e ;;
  match nodeKind n with
  | TextNode _ => throw TypeError
  | ElementNode _ =>
      logCall (RemoveAttribute e name) ;;;
      putNode e (mkLiveNode (nodeKind n)
                   (delete (asciiLowercase name) (attributes n)) (childNodes n))
  end.

Definition appendChild (parent child : nat) : M unit :=
  n <- getNode parent ;;
  match nodeKind n with
  | TextNode _ => throw HierarchyRequestError
  | ElementNode _ =>
      logCall (AppendChild parent child) ;;;
      putNode parent (mkLiveNode (nodeKind n) (attributes n) (childNodes n ++ [child]))
  end.

Definition firstChild (parent : nat) : M (option nat) :=
  n <- getNode parent ;; ret (head (childNodes n)).

(** Replaces the first occurrence of [old] in a child list. *)
Fixpoint replaceIn (new old : nat) (l : list nat) : list nat :=
  match l with
  | [] => []
  | x :: l' => if decide (x = old) then new :: l' else x :: replaceIn new old l'
  end.

(** Removes the first occurrence of [old] from a child list. *)
Fixpoint removeIn (old : nat) (l : list nat) : list nat :=
  match l with
  | [] => []
  | x :: l' => if decide (x = old) then l' else x :: removeIn old l'
  end.

(** [parent.replaceChild(newChild, oldChild)]; an argument that is not a
    node ([null], [undefined]) is [None]. *)
Definition replaceChild (parent : nat) (newChild oldChild : option nat) : M unit :=
  n <- getNode parent ;;
  match newChild, oldChild with
  | None, _ => throw TypeError
  | Some _, None => throw TypeError
  | Some new, Some old =>
      match nodeKind n with
      | TextNode _ => throw HierarchyRequestError
      | ElementNode _ =>
          if decide (old ∈ childNodes n) then
            logCall (ReplaceChild parent new old) ;;;
            putNode parent
              (mkLiveNode (nodeKind n) (attributes n) (replaceIn new old (childNodes n)))
          else throw NotFoundError
      end
  end.

Definition removeChild (parent : nat) (child : option nat) : M unit :=
  n <- getNode parent ;;
  match child with
  | None => throw TypeError
  | Some old =>
      if decide (old ∈ childNodes n) then
        logCall (RemoveChild parent old) ;;;
        putNode parent (mkLiveNode (nodeKind n) (attributes n) (removeIn old (childNodes n)))
      else throw NotFoundError
  end.

(** Assigning the empty string to [e.innerHTML]: an element loses all
    its children; on a text node the assignment only creates a property. *)
Definition clearInnerHTML (e : nat) : M unit :=
  n <- getNode e ;;
  match nodeKind n with
  | TextNode _ => ret tt
  | ElementNode _ =>
      logCall (SetInnerHTML e EmptyString) ;;;
      putNode e (mkLiveNode (nodeKind n) (attributes n) [])
  end.

(** ** Plain objects used as attribute mappings *)

(** Attribute mappings are object literals ([{}] on line 24, the
    literals of the usage example), so their prototype is
    [Object.prototype].  These are the property names every such object
    inherits from it. *)
Definition Object_prototype_names : list string :=
  [ "constructor"; "hasOwnProperty"; "isPrototypeOf"; "propertyIsEnumerable";
    "toLocaleString"; "toString"; "valueOf"; "__proto__";
    "__defineGetter__"; "__defineSetter__"; "__lookupGetter__"; "__lookupSetter__" ].

(** What a property read [obj[name]] can yield on such an object. *)
Inductive PropValue :=
  | PUndefined
  | PString (s : string)
  | PInherited.

Global Instance PropValue_eq_dec : EqDecision PropValue.
Proof. solve_decision. Defined.

(** [name in obj]: the [in] operator searches the own properties and
    then the prototype chain. *)
Definition inOp (name : string) (obj : gmap string string) : bool :=
  bool_decide (is_Some (obj !! name)) || bool_decide (name ∈ Object_prototype_names).

(** [obj[name]]: the own value when there is one, else what the
    prototype holds under that name (a function or an accessor result,
    never a string), else [undefined]. *)
Definition getProp (obj : gmap string string) (name : string) : PropValue :=
  match obj !! name with
  | Some v => PString v
  | None => if bool_decide (name ∈ Object_prototype_names) then PInherited else PUndefined
  end.

(** [Object.keys(obj)], [Object.entries(obj)] and every property access
    throw on [undefined].  JavaScript enumerates own properties in
    insertion order; a mapping here does not record that order, and the
    enumeration is that of [map_to_list].  The order decides only in
    which sequence the attribute calls of one element are made, and which
    value an element keeps when two names of one mapping have the same
    lower-case form.  The theorems below are about sets of calls and
    about mappings whose names are in lower case, where neither matters;
    the lemmas that compute a run call by call follow the enumeration of
    the model. *)
Definition toObject (p : JsProps) : M (gmap string string) :=
  match p with
  | Some obj => ret obj
  | None => throw TypeError
  end.

Definition Object_keys (p : JsProps) : M (list string) :=
  obj <- toObject p ;; ret (map fst (map_to_list obj)).

Definition Object_entries (p : JsProps) : M (list (string * string)) :=
  obj <- toObject p ;; ret (map_to_list obj).

(** ** The module [vdom.js] *)

(** [{ type, props, children }]: a new object. *)
Definition createVDomNode (type : string) (props : JsProps) (children : JsChildren)
  : M VNode :=
  λ w, Return (VRef (length (vheap w)))
              (mkWorld (vheap w ++ [mkVObject type props children]) (nodes w) (calls w)).

(** Property reads [v.type], [v.props], [v.children].  Reading a
    property of [null] or [undefined] ([None]) throws; a primitive string
    has none of the three, so the read yields [undefined] ([None]). *)
Definition getObject (a : nat) : M VObject :=
  λ w, match vheap w !! a with
       | Some o => Return o w
       | None => Abort
       end.

Definition readType (v : option VNode) : M (option string) :=
  match v with
  | None => throw TypeError
  | Some (VText _) => ret None
  | Some (VRef a) => o <- getObject a ;; ret (Some (type o))
  end.

Definition readProps (v : option VNode) : M JsProps :=
  match v with
  | None => throw TypeError
  | Some (VText _) => ret None
  | Some (VRef a) => o <- getObject a ;; ret (props o)
  end.

Definition readChildren (v : option VNode) : M (option JsChildren) :=
  match v with
  | None => throw TypeError
  | Some (VText _) => ret None
  | Some (VRef a) => o <- getObject a ;; ret (Some (children o))
  end.

Definition isTextNode (vNode : option VNode) : bool :=
  match vNode with
  | Some (VText _) => true
  | _ => false
  end.

(** The string a value is converted to by [document.createTextNode]. *)
Definition toString (v : VNode) : string :=
  match v with
  | VText s => s
  | VRef _ => "[object Object]"
  end.

(** The string [document.createElement] converts its argument to. *)
Definition tagString (t : option string) : string :=
  match t with
  | Some s => s
  | None => "undefined"
  end.

Definition updateDomAttributes (domElement : nat) (oldProps newProps : JsProps) : M unit :=
  keys <- Object_keys oldProps ;;
  forEach (λ propName,
             new <- toObject newProps ;;
             if negb (inOp propName new) then removeAttribute domElement propName
             else ret tt) keys ;;;
  entries <- Object_entries newProps ;;
  forEach (λ '(propName, propValue),
             old <- toObject oldProps ;;
             if decide (getProp old propName ≠ PString propValue)
             then setAttribute domElement propName propValue
             else ret tt) entries.

(** [children.forEach]: neither [undefined] nor a string has such a
    method. *)
Definition childrenArray (c : option JsChildren) : M (list VNode) :=
  match c with
  | Some (ChildList l) => ret l
  | _ => throw TypeError
  end.

Fixpoint renderVDomToDom (fuel : nat) (vNode : VNode) (container : option nat)
  : M unit :=
  match fuel with
  | 0 => abort
  | S fuel' =>
      domElement <-
        (if isTextNode (Some vNode) then createTextNode (toString vNode)
         else
           ty <- readType (Some vNode) ;;
           domElement <- createElement (tagString ty) ;;
           newProps <- readProps (Some vNode) ;;
           updateDomAttributes domElement (Some ∅) newProps ;;;
           c <- readChildren (Some vNode) ;;
           cs <- childrenArray c ;;
           forEach (λ child, renderVDomToDom fuel' child (Some domElement)) cs ;;;
           ret domElement) ;;
      match container with
      | Some c => appendChild c domElement
      | None => ret tt
      end
  end.

(** [parentDomElement.firstChild] *)
Definition getDomElementFromVNode (vNode : option VNode) (parentDomElement : option nat)
  : M (option nat) :=
  match parentDomElement with
  | Some p => firstChild p
  | None => throw TypeError
  end.

(** Line 66 calls [updateAttributes]; the module binds no such
    identifier (its attribute diff is [updateDomAttributes]) and the host
    has no such global, so resolving the name throws before any argument
    is evaluated. *)
Definition updateAttributes : M (option nat → JsProps → JsProps → M unit) :=
  throw ReferenceError.

(** [a !== b] on the values the diff compares: strings by value, objects
    by address; [None] is [null] or [undefined]. *)
Definition strictNeq (a b : option VNode) : bool :=
  negb (bool_decide (a = b)).

(** [children[index]]: an array element, or a one-character string;
    indexing [undefined] throws. *)
Definition childAt (c : option JsChildren) (index : nat) : M (option VNode) :=
  match c with
  | None => throw TypeError
  | Some (ChildList l) => ret (l !! index)
  | Some (ChildText s) =>
      ret (match String.get index s with
           | Some ch => Some (VText (String ch EmptyString))
           | None => None
           end)
  end.

(** [parentDomElement.replaceChild(newDomElement, parentDomElement.firstChild)] *)
Definition replaceFirstChild (parentDomElement : option nat) (newDomElement : option nat)
  : M unit :=
  match parentDomElement with
  | Some p => old <- firstChild p ;; replaceChild p newDomElement old
  | None => throw TypeError
  end.

(** The body of the loop of lines 70-74 at one child of the current node;
    [diff] is the recursive call. *)
Definition diffChild (diff : option VNode → option VNode → option nat → M unit)
    (previousVNode : option VNode) (domElement : option nat)
    (child : VNode) (index : nat) : M unit :=
  pc <- readChildren previousVNode ;;
  prevChild <- childAt pc index ;;
  if strictNeq (Some child) prevChild then diff prevChild (Some child) domElement
  else ret tt.

Fixpoint diffAndUpdate (fuel : nat) (previousVNode currentVNode : option VNode)
    (parentDomElement : option nat) : M unit :=
  match fuel with
  | 0 => abort
  | S fuel' =>
      match currentVNode with
      | None =>
          match parentDomElement with
          | Some p => clearInnerHTML p
          | None => throw TypeError
          end
      | Some cur =>
          if isTextNode previousVNode || isTextNode currentVNode then
            if strictNeq previousVNode currentVNode then
              newDomElement <- createTextNode (toString cur) ;;
              replaceFirstChild parentDomElement (Some newDomElement)
            else ret tt
          else
            prevType <- readType previousVNode ;;
            curType <- readType currentVNode ;;
            if decide (prevType ≠ curType) then
              (* [renderVDomToDom] has no [return]: the call yields [undefined] *)
              renderVDomToDom fuel' cur None ;;;
              replaceFirstChild parentDomElement None
            else
              domElement <- getDomElementFromVNode previousVNode parentDomElement ;;
              callee <- updateAttributes ;;
              prevProps <- readProps previousVNode ;;
              curProps <- readProps currentVNode ;;
              callee domElement prevProps curProps ;;;
              c <- readChildren currentVNode ;;
              cs <- childrenArray c ;;
              forEachFrom 0
                (diffChild (diffAndUpdate fuel') previousVNode domElement) cs
      end
  end.

(** The loop [while (p && p.firstChild) p.removeChild(p.firstChild)]. *)
Fixpoint removeAllChildren (fuel : nat) (parentDomElement : option nat) : M unit :=
  match fuel with
  | 0 => abort
  | S fuel' =>
      match parentDomElement with
      | None => ret tt
      | Some p =>
          c <- firstChild p ;;
          match c with
          | None => ret tt
          | Some _ => removeChild p c ;;; removeAllChildren fuel' parentDomElement
          end
      end
  end.

Definition reRenderElement (fuel : nat) (vNode : VNode) (parentDomElement : option nat)
  : M unit :=
  removeAllChildren fuel parentDomElement ;;;
  renderVDomToDom fuel vNode parentDomElement.

(** ** Trees: what a virtual tree describes and what a live subtree is *)

(** The tree a well-formed virtual node describes, which is also the
    shape of a live subtree: text values, tag names, attribute sets and
    the children in sequence order. *)
Inductive Tree :=
  | Text (s : string)
  | Element (tag : string) (attrs : gmap string string) (kids : list Tree).

(** Total number of nodes, elements and text nodes. *)
Fixpoint size (t : Tree) : nat :=
  match t with
  | Text _ => 1
  | Element _ _ kids => S (sum_list (map size kids))
  end.

Fixpoint height (t : Tree) : nat :=
  match t with
  | Text _ => 1
  | Element _ _ kids => S (foldr (λ k m, height k `max` m) 0 kids)
  end.

(** [vrep h v t]: in the virtual heap [h] the value [v] is a virtual
    tree of the data model (attribute mapping present, children an
    array) that describes [t]. *)
Inductive vrep (h : list VObject) : VNode → Tree → Prop :=
  | vrep_text s : vrep h (VText s) (Text s)
  | vrep_element a tag attrs vs kids :
      h !! a = Some (mkVObject tag (Some attrs) (ChildList vs)) →
      Forall2 (vrep h) vs kids →
      vrep h (VRef a) (Element tag attrs kids).

(** [lrep d id t]: in the live store [d] the subtree rooted at the node
    [id] has exactly the shape [t]. *)
Inductive lrep (d : list LiveNode) : nat → Tree → Prop :=
  | lrep_text id s :
      d !! id = Some (mkLiveNode (TextNode s) ∅ []) →
      lrep d id (Text s)
  | lrep_element id tag attrs ks kids :
      d !! id = Some (mkLiveNode (ElementNode tag) attrs ks) →
      Forall2 (lrep d) ks kids →
      lrep d id (Element tag attrs kids).

(** The content of a container: the shapes of its children, in order. *)
Definition content (d : list LiveNode) (c : nat) (ts : list Tree) : Prop :=
  ∃ n, d !! c = Some n ∧ Forall2 (lrep d) (childNodes n) ts.

(** The references of the roots of [ts] when they are allocated one
    after the other from [base] on. *)
Fixpoint childIds (base : nat) (ts : list Tree) : list nat :=
  match ts with
  | [] => []
  | t :: ts' => base :: childIds (base + size t) ts'
  end.

(** The live nodes a mount of [t] allocates from [base] on, in
    allocation order: the root first, then each child's subtree. *)
Fixpoint build (base : nat) (t : Tree) : list LiveNode :=
  match t with
  | Text s => [mkLiveNode (TextNode s) ∅ []]
  | Element tag attrs kids =>
      mkLiveNode (ElementNode tag) attrs (childIds (S base) kids)
      :: concat (zip_with (λ k b, build b k) kids (childIds (S base) kids))
  end.

Definition buildAll (base : nat) (ts : list Tree) : list LiveNode :=
  concat (zip_with (λ k b, build b k) ts (childIds base ts)).

(** Writing every entry of a mapping, one after the other. *)
Definition writeAll (a : gmap string string) (entries : list (string * string))
  : gmap string string :=
  foldl (λ acc kv, <[kv.1 := kv.2]> acc) a entries.

(** What a sequence of [setAttribute] calls leaves on an element that
    carried [a]: nothing ([None]) when one of the names is not valid,
    else the entries under their lower-case names. *)
Fixpoint writeLowered (a : gmap string string) (entries : list (string * string))
  : option (gmap string string) :=
  match entries with
  | [] => Some a
  | kv :: entries' =>
      if validAttributeName kv.1
      then writeLowered (<[asciiLowercase kv.1 := kv.2]> a) entries'
      else None
  end.

(** The shape of the live subtree a mount of [t] builds: nothing
    ([None]) when a tag or attribute name of [t] is not valid, else [t]
    with its names in lower case. *)
Fixpoint liveShape (t : Tree) : option Tree :=
  match t with
  | Text s => Some (Text s)
  | Element tag attrs kids =>
      if validElementName tag then
        match writeLowered ∅ (map_to_list attrs) with
        | Some attrs' =>
            match mapM liveShape kids with
            | Some kids' => Some (Element (asciiLowercase tag) attrs' kids')
            | None => None
            end
        | None => None
        end
      else None
  end.

(** The trees all of whose tag and attribute names are [htmlName]s. *)
Fixpoint plainNames (t : Tree) : bool :=
  match t with
  | Text _ => true
  | Element tag attrs kids =>
      htmlName tag
      && forallb (λ kv, htmlName kv.1) (map_to_list attrs)
      && forallb plainNames kids
  end.

(** The trees all of whose tag and attribute names are ASCII names of
    the [Name] production, in either case. *)
Fixpoint xmlNames (t : Tree) : bool :=
  match t with
  | Text _ => true
  | Element tag attrs kids =>
      isXmlAsciiName tag
      && forallb (λ kv, isXmlAsciiName kv.1) (map_to_list attrs)
      && forallb xmlNames kids
  end.

(** The trees all of whose tag and attribute names are valid. *)
Fixpoint validNames (t : Tree) : bool :=
  match t with
  | Text _ => true
  | Element tag attrs kids =>
      validElementName tag
      && forallb (λ kv, validAttributeName kv.1) (map_to_list attrs)
      && forallb validNames kids
  end.

(** The mappings all of whose names are [htmlName]s. *)
Definition plainKeys (m : gmap string string) : bool :=
  forallb (λ kv, htmlName kv.1) (map_to_list m).

(** The display-tree calls that only add to the live tree. *)
Definition constructive (call : DomCall) : bool :=
  match call with
  | CreateTextNode _ | CreateElement _ | SetAttribute _ _ _ | AppendChild _ _ => true
  | RemoveAttribute _ _ | ReplaceChild _ _ _ | RemoveChild _ _ | SetInnerHTML _ _ => false
  end.

(** [container && container.appendChild(domElement)] *)
Definition appendTo (container : option nat) (domElement : nat) : M unit :=
  match container with
  | Some p => appendChild p domElement
  | None => ret tt
  end.

(** What [renderVDomToDom] does on a virtual tree of the data model.
    When every name is valid it builds the live shape of the tree at
    the end of the store, by calls that only add, and then appends the
    root to the container; otherwise it throws an
    [InvalidCharacterError], having touched only nodes it created. *)
Definition MountSpec (t : Tree) : Prop :=
  ∀ (fuel : nat) v c h d l,
    vrep h v t → height t ≤ fuel →
    match liveShape t with
    | Some t' =>
        ∃ cs, Forall (λ call, constructive call = true) cs
              ∧ renderVDomToDom fuel v c (mkWorld h d l)
                = appendTo c (length d)
                    (mkWorld h (d ++ build (length d) t') (l ++ cs))
    | None =>
        ∃ news cs,
          renderVDomToDom fuel v c (mkWorld h d l)
          = Throw InvalidCharacterError (mkWorld h (d ++ news) (l ++ cs))
    end.

(** ** Frames: what an operation may change *)

(** [Frame n c w w']: from [w] to [w'] no virtual object changed, no
    live node disappeared, every live node with a reference below [n],
    other than the container [c], is as it was, and every live node
    below [n], the container included, kept its kind and its
    attributes. *)
Definition Frame (n : nat) (c : option nat) (w w' : World) : Prop :=
  vheap w' = vheap w
  ∧ length (nodes w) ≤ length (nodes w')
  ∧ (∀ id, id < n → Some id ≠ c → nodes w' !! id = nodes w !! id)
  ∧ (∀ id node, id < n → nodes w !! id = Some node →
       ∃ node', nodes w' !! id = Some node'
                ∧ nodeKind node' = nodeKind node
                ∧ attributes node' = attributes node).

(** A computation that, started with at least [n] live nodes, respects
    the frame however it ends, and returns a value satisfying [Q]. *)
Definition framed {A} (n : nat) (c : option nat) (Q : A → Prop) (m : M A) : Prop :=
  ∀ w, n ≤ length (nodes w) →
    match m w with
    | Return a w' => Q a ∧ Frame n c w w'
    | Throw _ w' => Frame n c w w'
    | Abort => True
    end.

(** The nodes whose child list an operation may write: those created
    after the frame was fixed, and the container. *)
Definition writable (n : nat) (c : option nat) (p : nat) : Prop :=
  n ≤ p ∨ c = Some p.

(** ** What the attribute diff does, as lists *)

(** The names [updateDomAttributes] removes: the own names of the old
    mapping for which [name in newProps] is false. *)
Definition removedNames (old new : gmap string string) : list string :=
  filter (λ name, inOp name new = false) (map fst (map_to_list old)).

(** The entries it writes: those of the new mapping whose value is not
    the old mapping's value under that name. *)
Definition writtenEntries (old new : gmap string string) : list (string * string) :=
  filter (λ kv, getProp old kv.1 ≠ PString kv.2) (map_to_list new).

Definition deleteAll (a : gmap string string) (names : list string)
  : gmap string string :=
  foldl (λ acc name, delete name acc) a names.

(** ** Example runs *)

(** A page whose only live node is an empty [body] element, reference 0,
    and no virtual object yet. *)
Definition emptyPage : World :=
  mkWorld [] [mkLiveNode (ElementNode "body") ∅ []] [].

(** Mount [<div class="old">], then diff it against a [<span>]. *)
Definition tagChangeRun : M unit :=
  prev <- createVDomNode "div" (Some {["class" := "old"]}) (ChildList []) ;;
  cur <- createVDomNode "span" (Some ∅) (ChildList []) ;;
  renderVDomToDom 2 prev (Some 0) ;;;
  diffAndUpdate 3 (Some prev) (Some cur) (Some 0).

(** Mount [<div>a</div>], then diff it against [<div>b</div>]. *)
Definition sameTagRun : M unit :=
  prev <- createVDomNode "div" (Some ∅) (ChildList [VText "a"]) ;;
  cur <- createVDomNode "div" (Some ∅) (ChildList [VText "b"]) ;;
  renderVDomToDom 2 prev (Some 0) ;;;
  diffAndUpdate 3 (Some prev) (Some cur) (Some 0).

(** Mount an element with the attribute [constructor="1"], then diff its
    attributes against the empty mapping. *)
Definition inheritedNameRun : M unit :=
  v <- createVDomNode "div" (Some {["constructor" := "1"]}) (ChildList []) ;;
  renderVDomToDom 2 v (Some 0) ;;;
  updateDomAttributes 1 (Some {["constructor" := "1"]}) (Some ∅).

(** The page of the usage example: the virtual tree
    [div#app("Hello, Virtual DOM!", p("This is a paragraph."))] is object
    1, the container is live node 0. *)
Definition usagePage : World :=
  mkWorld
    [ mkVObject "p" (Some ∅) (ChildList [VText "This is a paragraph."]);
      mkVObject "div" (Some {["id" := "app"]})
        (ChildList [VText "Hello, Virtual DOM!"; VRef 0]) ]
    [ mkLiveNode (ElementNode "body") ∅ [] ]
    [].

Definition usageTree : Tree :=
  Element "div" {["id" := "app"]}
    [ Text "Hello, Virtual DOM!";
      Element "p" ∅ [Text "This is a paragraph."] ].

(** A page holding an object outside the data model: object 0 has no
    [props]; the container, live node 0, has one text child. *)
Definition brokenPage : World :=
  mkWorld
    [ mkVObject "div" None (ChildList []) ]
    [ mkLiveNode (ElementNode "body") ∅ [1];
      mkLiveNode (TextNode "old") ∅ [] ]
    [].

(** A page whose container, live node 0, carries two attributes and has
    one text child, live node 1. *)
Definition attributePage : World :=
  mkWorld []
    [ mkLiveNode (ElementNode "div") {["a" := "1"; "b" := "2"]} [1];
      mkLiveNode (TextNode "hello") ∅ [] ]
    [].


(** A page whose virtual object 0 is [div] with an attribute name that
    contains a space. *)
Definition spacedNamePage : World :=
  mkWorld
    [ mkVObject "div" (Some {["my attr" := "x"]}) (ChildList []) ]
    [ mkLiveNode (ElementNode "body") ∅ [] ]
    [].

(** The page of the usage example once something is on it: the
    container, live node 0, carries an attribute and holds a text and an
    element with a text of its own. *)
Definition busyPage : World :=
  mkWorld (vheap usagePage)
    [ mkLiveNode (ElementNode "body") {["lang" := "en"]} [1; 2];
      mkLiveNode (TextNode "intro") ∅ [];
      mkLiveNode (ElementNode "em") {["class" := "note"]} [3];
      mkLiveNode (TextNode "old") ∅ [] ]
    [].

Definition busyContent : list Tree :=
  [ Text "intro"; Element "em" {["class" := "note"]} [Text "old"] ].

(** A page on which the element [div] of object 1 is mounted under the
    container, live node 0: its children are a [span] (object 0), the
    text [a] and the text [tail].  Object 2 is a [div] whose children are
    the very same [span] object and the text [b]: against object 1, the
    child at index 0 is identical, the child at index 1 differs, and
    index 2 exists only in object 1. *)
Definition sharedChildPage : World :=
  mkWorld
    [ mkVObject "span" (Some ∅) (ChildList []);
      mkVObject "div" (Some ∅) (ChildList [VRef 0; VText "a"; VText "tail"]);
      mkVObject "div" (Some ∅) (ChildList [VRef 0; VText "b"]) ]
    [ mkLiveNode (ElementNode "body") ∅ [1];
      mkLiveNode (ElementNode "div") ∅ [2; 3; 4];
      mkLiveNode (ElementNode "span") ∅ [];
      mkLiveNode (TextNode "a") ∅ [];
      mkLiveNode (TextNode "tail") ∅ [] ]
    [].

(** * Properties *)

(** ** Names *)

Lemma allChars_impl (p q : ascii → bool) s :
  (∀ c, p c = true → q c = true) → allChars p s = true → allChars q s = true.
Proof.
  intros Hpq. induction s as [| c s IH]; simpl; [done |].
  rewrite !andb_true_iff. intros [Hc Hs]. auto.
Qed.

Ltac chars :=
  unfold xmlNameChar, xmlNameStart, elementContinue, elementForbidden,
    isWhitespace, isAlpha, isUpper, isLower, isDigit in *;
  repeat match goal with
         | |- context [code ?c] =>
             let n := fresh "n" in set (n := code c) in *; clearbody n
         | H : context [code ?c] |- _ =>
             let n := fresh "n" in set (n := code c) in *; clearbody n
         end;
  rewrite ?negb_true_iff, ?orb_false_iff, ?andb_false_iff, ?orb_true_iff,
    ?andb_true_iff, ?Nat.leb_le, ?Nat.leb_gt, ?Nat.eqb_eq, ?Nat.eqb_neq in *;
  lia.

Lemma xmlNameChar_not_forbidden c :
  xmlNameChar c = true → negb (elementForbidden c) = true.
Proof. intros H. chars. Qed.

Lemma xmlNameChar_not_forbidden_attr c :
  xmlNameChar c = true → negb (elementForbidden c || (code c =? 61)) = true.
Proof. intros H. chars. Qed.

Lemma xmlNameChar_continue c : xmlNameChar c = true → elementContinue c = true.
Proof. intros H. chars. Qed.

Lemma xmlNameStart_char c : xmlNameStart c = true → xmlNameChar c = true.
Proof. intros H. chars. Qed.

Lemma xmlNameStart_cases c :
  xmlNameStart c = true →
  isAlpha c = true
  ∨ (isAlpha c = false ∧ (code c =? 58) || (code c =? 95) || (128 <=? code c) = true).
Proof.
  intros H. destruct (isAlpha c) eqn:Ha; [by left | right].
  split; [done |]. unfold xmlNameStart in H. rewrite Ha in H. simpl in H.
  rewrite orb_true_iff. by left.
Qed.

(** Every ASCII name of the [Name] production is a valid element name
    and a valid attribute name. *)
Lemma xmlName_valid s :
  isXmlAsciiName s = true → validElementName s = true ∧ validAttributeName s = true.
Proof.
  destruct s as [| c s]; [done |].
  cbn [isXmlAsciiName validElementName validAttributeName allChars].
  rewrite andb_true_iff. intros [Hc Hs].
  split.
  - destruct (xmlNameStart_cases c Hc) as [-> | [-> ->]].
    + eapply allChars_impl; [| exact Hs]. apply xmlNameChar_not_forbidden.
    + eapply allChars_impl; [| exact Hs]. apply xmlNameChar_continue.
  - rewrite andb_true_iff. split.
    + by apply xmlNameChar_not_forbidden_attr, xmlNameStart_char.
    + eapply allChars_impl; [| exact Hs]. apply xmlNameChar_not_forbidden_attr.
Qed.

Lemma asciiLowercase_id s :
  allChars (λ c, negb (isUpper c)) s = true → asciiLowercase s = s.
Proof.
  induction s as [| c s IH]; simpl; [done |].
  rewrite andb_true_iff, negb_true_iff. intros [Hc Hs].
  unfold lowerChar. rewrite Hc. by rewrite IH.
Qed.

Lemma htmlName_spec s :
  htmlName s = true →
  validElementName s = true ∧ validAttributeName s = true ∧ asciiLowercase s = s.
Proof.
  unfold htmlName. rewrite andb_true_iff. intros [Hx Hl].
  destruct (xmlName_valid s Hx). auto using asciiLowercase_id.
Qed.

(** ** Running the display-tree API on an explicit world *)

Section Host.
Context (h : list VObject) (d : list LiveNode) (l : list DomCall).

Lemma run_createTextNode s :
  createTextNode s (mkWorld h d l)
  = Return (length d)
      (mkWorld h (d ++ [mkLiveNode (TextNode s) ∅ []]) (l ++ [CreateTextNode s])).
Proof. reflexivity. Qed.

Lemma run_createElement tag :
  validElementName tag = true →
  createElement tag (mkWorld h d l)
  = Return (length d)
      (mkWorld h (d ++ [mkLiveNode (ElementNode (asciiLowercase tag)) ∅ []])
         (l ++ [CreateElement tag])).
Proof. intros Hv. unfold createElement. by rewrite Hv. Qed.

Lemma run_createElement_invalid tag :
  validElementName tag = false →
  createElement tag (mkWorld h d l) = Throw InvalidCharacterError (mkWorld h d l).
Proof. intros Hv. unfold createElement. by rewrite Hv. Qed.

Lemma run_setAttribute e tag a ks name value :
  validAttributeName name = true →
  d !! e = Some (mkLiveNode (ElementNode tag) a ks) →
  setAttribute e name value (mkWorld h d l)
  = Return tt
      (mkWorld h
         (<[e := mkLiveNode (ElementNode tag) (<[asciiLowercase name := value]> a) ks]> d)
         (l ++ [SetAttribute e name value])).
Proof.
  intros Hv Hd. unfold setAttribute, bind, getNode. simpl. rewrite Hd. simpl.
  by rewrite Hv.
Qed.

Lemma run_setAttribute_invalid e tag a ks name value :
  validAttributeName name = false →
  d !! e = Some (mkLiveNode (ElementNode tag) a ks) →
  setAttribute e name value (mkWorld h d l)
  = Throw InvalidCharacterError (mkWorld h d l).
Proof.
  intros Hv Hd. unfold setAttribute, bind, getNode. simpl. rewrite Hd. simpl.
  by rewrite Hv.
Qed.

Lemma run_removeAttribute e tag a ks name :
  d !! e = Some (mkLiveNode (ElementNode tag) a ks) →
  removeAttribute e name (mkWorld h d l)
  = Return tt
      (mkWorld h
         (<[e := mkLiveNode (ElementNode tag) (delete (asciiLowercase name) a) ks]> d)
         (l ++ [RemoveAttribute e name])).
Proof. intros Hd. unfold removeAttribute, bind, getNode. simpl. by rewrite Hd. Qed.

Lemma run_appendChild p tag a ks c :
  d !! p = Some (mkLiveNode (ElementNode tag) a ks) →
  appendChild p c (mkWorld h d l)
  = Return tt
      (mkWorld h (<[p := mkLiveNode (ElementNode tag) a (ks ++ [c])]> d)
         (l ++ [AppendChild p c])).
Proof. intros Hd. unfold appendChild, bind, getNode. simpl. by rewrite Hd. Qed.

Lemma run_firstChild p n :
  d !! p = Some n →
  firstChild p (mkWorld h d l) = Return (head (childNodes n)) (mkWorld h d l).
Proof. intros Hd. unfold firstChild, bind, getNode. simpl. by rewrite Hd. Qed.

Lemma run_replaceChild p tag a k rest new :
  d !! p = Some (mkLiveNode (ElementNode tag) a (k :: rest)) →
  replaceChild p (Some new) (Some k) (mkWorld h d l)
  = Return tt
      (mkWorld h (<[p := mkLiveNode (ElementNode tag) a (new :: rest)]> d)
         (l ++ [ReplaceChild p new k])).
Proof.
  intros Hd. unfold replaceChild, bind, getNode. simpl. rewrite Hd. simpl.
  rewrite decide_True by apply list_elem_of_here.
  simpl. by rewrite decide_True.
Qed.

Lemma run_replaceChild_undefined p n old :
  d !! p = Some n →
  replaceChild p None old (mkWorld h d l) = Throw TypeError (mkWorld h d l).
Proof. intros Hd. unfold replaceChild, bind, getNode. simpl. by rewrite Hd. Qed.

Lemma run_removeChild_first p tag a k rest :
  d !! p = Some (mkLiveNode (ElementNode tag) a (k :: rest)) →
  removeChild p (Some k) (mkWorld h d l)
  = Return tt
      (mkWorld h (<[p := mkLiveNode (ElementNode tag) a rest]> d)
         (l ++ [RemoveChild p k])).
Proof.
  intros Hd. unfold removeChild, bind, getNode. simpl. rewrite Hd. simpl.
  rewrite decide_True by apply list_elem_of_here.
  simpl. by rewrite decide_True.
Qed.


End Host.

(** ** Trees and the nodes a mount allocates *)

Lemma Tree_ind' (P : Tree → Prop) :
  (∀ s, P (Text s)) →
  (∀ tag attrs kids, Forall P kids → P (Element tag attrs kids)) →
  ∀ t, P t.
Proof.
  intros HText HElement. fix IH 1. intros [s | tag attrs kids].
  - apply HText.
  - apply HElement. induction kids as [| k kids IHkids]; constructor; auto.
Qed.

Lemma buildAll_cons base t ts :
  buildAll base (t :: ts) = build base t ++ buildAll (base + size t) ts.
Proof. reflexivity. Qed.

Lemma build_element base tag attrs kids :
  build base (Element tag attrs kids)
  = mkLiveNode (ElementNode tag) attrs (childIds (S base) kids) :: buildAll (S base) kids.
Proof. reflexivity. Qed.

Lemma length_build t : ∀ base, length (build base t) = size t.
Proof.
  induction t as [s | tag attrs kids IH] using Tree_ind'; intros base; [done |].
  rewrite build_element. simpl. f_equal.
  generalize (S base). induction IH as [| k kids Hk _ IHkids]; intros b; [done |].
  rewrite buildAll_cons, length_app, Hk, IHkids. done.
Qed.

Lemma length_buildAll ts base : length (buildAll base ts) = sum_list (map size ts).
Proof.
  revert base. induction ts as [| t ts IH]; intros base; [done |].
  rewrite buildAll_cons, length_app, length_build, IH. done.
Qed.

Lemma length_childIds ts base : length (childIds base ts) = length ts.
Proof. revert base. induction ts; intros; simpl; auto. Qed.

Lemma insert_middle {A} (pre : list A) x y rest :
  <[length pre := x]> (pre ++ y :: rest) = pre ++ x :: rest.
Proof. induction pre; simpl; [done | by f_equal]. Qed.

Lemma lookup_middle {A} (pre : list A) y rest :
  (pre ++ y :: rest) !! length pre = Some y.
Proof. induction pre; simpl; done. Qed.

(** ** The attribute diff on a freshly created element *)

Lemma writeAll_union entries :
  NoDup entries.*1 →
  ∀ a, writeAll a entries = list_to_map entries ∪ a.
Proof.
  induction entries as [| [k v] entries IH]; intros Hnd a; simpl.
  - by rewrite (left_id_L ∅ (∪)).
  - inversion Hnd as [| ? ? Hk Hnd']; subst.
    unfold writeAll in *. simpl. rewrite IH by done.
    rewrite <- insert_union_l. rewrite insert_union_r; [done |].
    by apply not_elem_of_list_to_map_1.
Qed.

Lemma writeAll_map_to_list (m : gmap string string) :
  writeAll ∅ (map_to_list m) = m.
Proof.
  rewrite writeAll_union by apply NoDup_fst_map_to_list.
  by rewrite (right_id_L ∅ (∪)), list_to_map_to_list.
Qed.

Lemma getProp_empty name value : getProp ∅ name ≠ PString value.
Proof. unfold getProp. rewrite lookup_empty. by case_bool_decide. Qed.

Lemma writeLowered_plain entries :
  forallb (λ kv : string * string, htmlName kv.1) entries = true →
  ∀ a, writeLowered a entries = Some (writeAll a entries).
Proof.
  induction entries as [| [k v] entries IH]; intros Hall a; [done |].
  simpl in Hall. apply andb_true_iff in Hall as [Hk Hall].
  destruct (htmlName_spec k Hk) as (_ & Hv & Hl).
  cbn [writeLowered fst snd]. rewrite Hv, Hl. unfold writeAll. cbn [foldl].
  by apply IH.
Qed.

Lemma run_writeFresh h e tag ks :
  ∀ (entries : list (string * string)) d a l,
    d !! e = Some (mkLiveNode (ElementNode tag) a ks) →
    match writeLowered a entries with
    | Some a' =>
        ∃ cs, Forall (λ call, constructive call = true) cs
              ∧ forEach (λ '(propName, propValue),
                           old' <- toObject (Some ∅) ;;
                           if decide (getProp old' propName ≠ PString propValue)
                           then setAttribute e propName propValue
                           else ret tt) entries (mkWorld h d l)
                = Return tt
                    (mkWorld h (<[e := mkLiveNode (ElementNode tag) a' ks]> d) (l ++ cs))
    | None =>
        ∃ a' cs,
          forEach (λ '(propName, propValue),
                     old' <- toObject (Some ∅) ;;
                     if decide (getProp old' propName ≠ PString propValue)
                     then setAttribute e propName propValue
                     else ret tt) entries (mkWorld h d l)
          = Throw InvalidCharacterError
              (mkWorld h (<[e := mkLiveNode (ElementNode tag) a' ks]> d) (l ++ cs))
    end.
Proof.
  induction entries as [| [k v] entries IH]; intros d a l Hd.
  - cbn [writeLowered forEach]. exists []. split; [constructor |].
    unfold ret. by rewrite list_insert_id, app_nil_r.
  - cbn [writeLowered fst snd].
    assert (Hstep : ∀ rest : M unit,
              bind (old' <- toObject (Some ∅) ;;
                    if decide (getProp old' k ≠ PString v)
                    then setAttribute e k v else ret tt) (λ _, rest) (mkWorld h d l)
              = bind (setAttribute e k v) (λ _, rest) (mkWorld h d l)).
    { intros rest. unfold bind at 1 2. cbn [toObject ret].
      by rewrite (decide_True (P := getProp ∅ k ≠ PString v)) by apply getProp_empty. }
    destruct (validAttributeName k) eqn:Hk.
    + assert (Hd' : <[e := mkLiveNode (ElementNode tag) (<[asciiLowercase k := v]> a) ks]> d
                    !! e
                    = Some (mkLiveNode (ElementNode tag) (<[asciiLowercase k := v]> a) ks)).
      { apply list_lookup_insert_eq. by eapply lookup_lt_Some. }
      specialize (IH _ _ (l ++ [SetAttribute e k v]) Hd').
      destruct (writeLowered (<[asciiLowercase k := v]> a) entries) as [a' |].
      * destruct IH as (cs & Hcs & Heq). exists (SetAttribute e k v :: cs).
        split; [by constructor |].
        cbn [forEach]. rewrite Hstep. unfold bind at 1.
        rewrite (run_setAttribute _ _ _ _ _ _ _ _ _ Hk Hd), Heq.
        by rewrite list_insert_insert_eq, <- app_assoc.
      * destruct IH as (a' & cs & Heq). exists a', (SetAttribute e k v :: cs).
        cbn [forEach]. rewrite Hstep. unfold bind at 1.
        rewrite (run_setAttribute _ _ _ _ _ _ _ _ _ Hk Hd), Heq.
        by rewrite list_insert_insert_eq, <- app_assoc.
    + exists a, []. cbn [forEach]. rewrite Hstep. unfold bind at 1.
      rewrite (run_setAttribute_invalid _ _ _ _ _ _ _ _ _ Hk Hd).
      by rewrite list_insert_id, app_nil_r.
Qed.

Lemma run_updateDomAttributes_fresh h d l e tag ks (attrs : gmap string string) :
  d !! e = Some (mkLiveNode (ElementNode tag) ∅ ks) →
  match writeLowered ∅ (map_to_list attrs) with
  | Some a' =>
      ∃ cs, Forall (λ call, constructive call = true) cs
            ∧ updateDomAttributes e (Some ∅) (Some attrs) (mkWorld h d l)
              = Return tt
                  (mkWorld h (<[e := mkLiveNode (ElementNode tag) a' ks]> d) (l ++ cs))
  | None =>
      ∃ a' cs,
        updateDomAttributes e (Some ∅) (Some attrs) (mkWorld h d l)
        = Throw InvalidCharacterError
            (mkWorld h (<[e := mkLiveNode (ElementNode tag) a' ks]> d) (l ++ cs))
  end.
Proof.
  intros Hd.
  assert (Hrun : updateDomAttributes e (Some ∅) (Some attrs) (mkWorld h d l)
                 = forEach (λ '(propName, propValue),
                              old' <- toObject (Some ∅) ;;
                              if decide (getProp old' propName ≠ PString propValue)
                              then setAttribute e propName propValue
                              else ret tt) (map_to_list attrs) (mkWorld h d l)).
  { unfold updateDomAttributes, Object_keys, Object_entries.
    unfold bind at 1. unfold bind at 1. cbn [toObject ret].
    rewrite map_to_list_empty. cbn [map forEach].
    unfold bind at 1. cbn [ret]. unfold bind at 1. unfold bind at 1.
    reflexivity. }
  rewrite Hrun.
  exact (run_writeFresh h e tag ks (map_to_list attrs) d ∅ l Hd).
Qed.

(** ** Mount *)

Lemma run_mount_children h (fuel : nat) pre tag attrs kids :
  Forall MountSpec kids →
  Forall (λ t, height t ≤ fuel) kids →
  ∀ vs, Forall2 (vrep h) vs kids →
  ∀ ks built l,
    match mapM liveShape kids with
    | Some kids' =>
        ∃ cs, Forall (λ call, constructive call = true) cs
              ∧ forEach (λ child, renderVDomToDom fuel child (Some (length pre))) vs
                  (mkWorld h (pre ++ mkLiveNode (ElementNode tag) attrs ks :: built) l)
                = Return tt
                    (mkWorld h
                       (pre ++ mkLiveNode (ElementNode tag) attrs
                                 (ks ++ childIds (S (length pre) + length built) kids')
                               :: built ++ buildAll (S (length pre) + length built) kids')
                       (l ++ cs))
    | None =>
        ∃ news cs,
          forEach (λ child, renderVDomToDom fuel child (Some (length pre))) vs
            (mkWorld h (pre ++ mkLiveNode (ElementNode tag) attrs ks :: built) l)
          = Throw InvalidCharacterError (mkWorld h (pre ++ news) (l ++ cs))
    end.
Proof.
  intros HIH Hfuel vs Hvs. revert HIH Hfuel.
  induction Hvs as [| v t vs kids Hv Hvs IH]; intros HIH Hfuel ks built l.
  - cbn. exists []. split; [constructor |]. unfold ret. by rewrite !app_nil_r.
  - inversion HIH as [| ? ? Ht HIH']; subst.
    inversion Hfuel as [| ? ? Hft Hfuel']; subst.
    set (b := S (length pre) + length built).
    assert (Hb : length (pre ++ mkLiveNode (ElementNode tag) attrs ks :: built) = b).
    { rewrite length_app. simpl. unfold b. lia. }
    specialize (Ht fuel v (Some (length pre)) h
                  (pre ++ mkLiveNode (ElementNode tag) attrs ks :: built) l Hv Hft).
    rewrite Hb in Ht.
    cbn [mapM]. destruct (liveShape t) as [t' |]; cbn [mbind option_bind].
    + destruct Ht as (cs1 & Hcs1 & Ht). cbn [appendTo] in Ht.
      erewrite run_appendChild in Ht; last first.
      { rewrite lookup_app_l by (rewrite Hb; unfold b; lia). apply lookup_middle. }
      rewrite <- (app_assoc pre), <- app_comm_cons, insert_middle in Ht.
      specialize (IH HIH' Hfuel' (ks ++ [b]) (built ++ build b t')
                    ((l ++ cs1) ++ [AppendChild (length pre) b])).
      rewrite length_app, length_build in IH.
      replace (S (length pre) + (length built + size t')) with (b + size t') in IH
        by (unfold b; lia).
      destruct (mapM liveShape kids) as [kids' |]; cbn [mret option_ret].
      * destruct IH as (cs2 & Hcs2 & IH).
        exists (cs1 ++ AppendChild (length pre) b :: cs2). split.
        { apply Forall_app. split; [done | by constructor]. }
        cbn [forEach]. unfold bind at 1. rewrite Ht, IH.
        rewrite buildAll_cons. cbn [childIds].
        f_equal. f_equal; [| by rewrite <- !app_assoc].
        by rewrite <- !app_assoc.
      * destruct IH as (news & cs2 & IH).
        exists news, (cs1 ++ AppendChild (length pre) b :: cs2).
        cbn [forEach]. unfold bind at 1. rewrite Ht, IH.
        f_equal. f_equal. by rewrite <- !app_assoc.
    + destruct Ht as (news & cs & Ht).
      exists (mkLiveNode (ElementNode tag) attrs ks :: built ++ news), cs.
      cbn [forEach]. unfold bind at 1. rewrite Ht.
      by rewrite <- app_assoc.
Qed.
Lemma height_kids fuel tag attrs kids :
  height (Element tag attrs kids) ≤ S fuel → Forall (λ t, height t ≤ fuel) kids.
Proof.
  simpl. intros H. apply PeanoNat.Nat.succ_le_mono in H. revert H.
  induction kids as [| k kids IH]; simpl; intros H; constructor; [lia | apply IH; lia].
Qed.

Ltac mount_prefix Ha Hval :=
  cbn [renderVDomToDom isTextNode readType readProps readChildren];
  unfold bind at 1; unfold bind at 1; unfold bind at 1;
  unfold getObject at 1; cbn [vheap]; rewrite Ha; cbn [ret type tagString];
  unfold bind at 1;
  first [ rewrite (run_createElement _ _ _ _ Hval)
        | rewrite (run_createElement_invalid _ _ _ _ Hval) ].

Ltac mount_attrs Ha Hattrs :=
  unfold bind at 1; unfold bind at 1; unfold getObject at 1;
  cbn [vheap]; rewrite Ha; cbn [ret props];
  unfold bind at 1; rewrite Hattrs.

Lemma run_renderVDomToDom t : MountSpec t.
Proof.
  induction t as [s | tag attrs kids IH] using Tree_ind';
    intros fuel v c h d l Hv Hfuel.
  - inversion Hv; subst. destruct fuel as [| fuel]; [simpl in Hfuel; lia |].
    cbn [liveShape]. exists [CreateTextNode s]. split; [by repeat constructor |].
    cbn [renderVDomToDom isTextNode toString]. unfold bind at 1.
    by rewrite run_createTextNode.
  - inversion Hv as [| a ? ? vs ? Ha Hvs]; subst.
    destruct fuel as [| fuel]; [simpl in Hfuel; lia |].
    apply height_kids in Hfuel.
    cbn [liveShape]. destruct (validElementName tag) eqn:Hval.
    2: { exists [], []. mount_prefix Ha Hval. by rewrite !app_nil_r. }
    pose proof (run_updateDomAttributes_fresh h
                  (d ++ [mkLiveNode (ElementNode (asciiLowercase tag)) ∅ []])
                  (l ++ [CreateElement tag]) (length d) (asciiLowercase tag) [] attrs
                  (lookup_middle _ _ _)) as Hattrs.
    destruct (writeLowered ∅ (map_to_list attrs)) as [attrs' |].
    2: { destruct Hattrs as (a' & cs & Hattrs). rewrite insert_middle in Hattrs.
         exists [mkLiveNode (ElementNode (asciiLowercase tag)) a' []],
           (CreateElement tag :: cs).
         mount_prefix Ha Hval. mount_attrs Ha Hattrs.
         by rewrite <- app_assoc. }
    destruct Hattrs as (cs1 & Hcs1 & Hattrs). rewrite insert_middle in Hattrs.
    pose proof (run_mount_children h fuel d (asciiLowercase tag) attrs' kids IH Hfuel
                  vs Hvs [] [] ((l ++ [CreateElement tag]) ++ cs1)) as Hkids.
    cbn [length app] in Hkids. rewrite Nat.add_0_r in Hkids.
    destruct (mapM liveShape kids) as [kids' |].
    + destruct Hkids as (cs2 & Hcs2 & Hkids).
      exists (CreateElement tag :: cs1 ++ cs2). split.
      { constructor; [done |]. by apply Forall_app. }
      mount_prefix Ha Hval. mount_attrs Ha Hattrs.
      unfold bind at 1. unfold bind at 1. unfold getObject at 1.
      cbn [vheap]. rewrite Ha. cbn [ret children childrenArray].
      unfold bind at 1. unfold bind at 1. unfold ret at 1. cbv beta iota.
      rewrite Hkids. cbn [ret]. rewrite build_element.
      unfold appendTo. by rewrite <- !app_assoc.
    + destruct Hkids as (news & cs2 & Hkids).
      exists news, (CreateElement tag :: cs1 ++ cs2).
      mount_prefix Ha Hval. mount_attrs Ha Hattrs.
      unfold bind at 1. unfold bind at 1. unfold getObject at 1.
      cbn [vheap]. rewrite Ha. cbn [ret children childrenArray].
      unfold bind at 1. unfold bind at 1. unfold ret at 1. cbv beta iota.
      rewrite Hkids. by rewrite <- !app_assoc.
Qed.
Lemma lrep_buildAll kids :
  Forall (λ t, ∀ pre post, lrep (pre ++ build (length pre) t ++ post) (length pre) t) kids →
  ∀ pre post,
    Forall2 (lrep (pre ++ buildAll (length pre) kids ++ post))
      (childIds (length pre) kids) kids.
Proof.
  induction 1 as [| t kids Ht _ IH]; intros pre post; [constructor |].
  rewrite buildAll_cons. simpl. constructor.
  - rewrite <- app_assoc. apply Ht.
  - specialize (IH (pre ++ build (length pre) t) post).
    rewrite length_app, length_build in IH.
    by rewrite <- !app_assoc in IH |- *.
Qed.

Lemma lrep_build t :
  ∀ pre post, lrep (pre ++ build (length pre) t ++ post) (length pre) t.
Proof.
  induction t as [s | tag attrs kids IH] using Tree_ind'; intros pre post.
  - constructor. apply lookup_middle.
  - rewrite build_element, <- app_comm_cons.
    econstructor; [apply lookup_middle |].
    pose proof (lrep_buildAll kids IH
                  (pre ++ [mkLiveNode (ElementNode tag) attrs
                             (childIds (S (length pre)) kids)]) post) as H.
    rewrite length_app in H. simpl in H. rewrite Nat.add_1_r in H.
    by rewrite <- app_assoc in H.
Qed.

Lemma mapM_liveShape_plain kids :
  Forall (λ t, plainNames t = true → liveShape t = Some t) kids →
  forallb plainNames kids = true →
  mapM liveShape kids = Some kids.
Proof.
  induction 1 as [| t kids Ht _ IH]; intros Hall; [done |].
  simpl in Hall. apply andb_true_iff in Hall as [Hp Hall].
  cbn [mapM]. rewrite (Ht Hp). cbn [mbind option_bind]. by rewrite (IH Hall).
Qed.

(** A tree whose names are all [htmlName]s is mounted with exactly its
    own shape. *)
Lemma liveShape_plain t : plainNames t = true → liveShape t = Some t.
Proof.
  induction t as [s | tag attrs kids IH] using Tree_ind'; intros Hp; [done |].
  cbn [plainNames] in Hp. apply andb_true_iff in Hp as [Hp Hkids].
  apply andb_true_iff in Hp as [Htag Hattrs].
  destruct (htmlName_spec tag Htag) as (Hval & _ & Hlow).
  cbn [liveShape]. rewrite Hval, Hlow.
  rewrite (writeLowered_plain _ Hattrs), writeAll_map_to_list.
  by rewrite (mapM_liveShape_plain kids IH Hkids).
Qed.

(** Mounting into an element container, when every name is valid. *)
Lemma run_mount_into (t t' : Tree) (fuel : nat) v c h d l tag a ks :
  vrep h v t → height t ≤ fuel → liveShape t = Some t' →
  d !! c = Some (mkLiveNode (ElementNode tag) a ks) →
  ∃ cs, Forall (λ call, constructive call = true) cs
        ∧ renderVDomToDom fuel v (Some c) (mkWorld h d l)
          = Return tt
              (mkWorld h
                 (<[c := mkLiveNode (ElementNode tag) a (ks ++ [length d])]> d
                  ++ build (length d) t')
                 (l ++ cs)).
Proof.
  intros Hv Hfuel Hshape Hc. pose proof (lookup_lt_Some _ _ _ Hc) as Hlt.
  pose proof (run_renderVDomToDom t fuel v (Some c) h d l Hv Hfuel) as Hrun.
  rewrite Hshape in Hrun. destruct Hrun as (cs & Hcs & Hrun).
  exists (cs ++ [AppendChild c (length d)]). split.
  { apply Forall_app. split; [done | by repeat constructor]. }
  rewrite Hrun. cbn [appendTo].
  erewrite run_appendChild by (rewrite lookup_app_l by done; exact Hc).
  by rewrite insert_app_l, app_assoc.
Qed.

(** Mounting without a container, when every name is valid. *)
Lemma run_mount_detached (t t' : Tree) (fuel : nat) v h d l :
  vrep h v t → height t ≤ fuel → liveShape t = Some t' →
  ∃ cs, Forall (λ call, constructive call = true) cs
        ∧ renderVDomToDom fuel v None (mkWorld h d l)
          = Return tt (mkWorld h (d ++ build (length d) t') (l ++ cs)).
Proof.
  intros Hv Hfuel Hshape.
  pose proof (run_renderVDomToDom t fuel v None h d l Hv Hfuel) as Hrun.
  by rewrite Hshape in Hrun.
Qed.

Lemma htmlName_xml s : htmlName s = true → isXmlAsciiName s = true.
Proof. unfold htmlName. rewrite andb_true_iff. tauto. Qed.

Lemma plainNames_xmlNames t : plainNames t = true → xmlNames t = true.
Proof.
  induction t as [s | tag attrs kids IH] using Tree_ind'; intros Hp; [done |].
  cbn [plainNames] in Hp. apply andb_true_iff in Hp as [Hp Hkids].
  apply andb_true_iff in Hp as [Htag Hattrs].
  cbn [xmlNames]. rewrite (htmlName_xml tag Htag). cbn [andb].
  apply andb_true_iff. split.
  - rewrite forallb_forall in *. intros kv Hin. apply htmlName_xml. auto.
  - clear Htag Hattrs. induction IH as [| k kids Hk _ IHkids]; [done |].
    simpl in *. apply andb_true_iff in Hkids as [Hk' Hkids].
    rewrite (Hk Hk'). cbn [andb]. auto.
Qed.

Lemma writeLowered_xml entries :
  forallb (λ kv : string * string, isXmlAsciiName kv.1) entries = true →
  ∀ a, ∃ a', writeLowered a entries = Some a'.
Proof.
  induction entries as [| [k v] entries IH]; intros Hall a; [by eexists |].
  simpl in Hall. apply andb_true_iff in Hall as [Hk Hall].
  destruct (xmlName_valid k Hk) as [_ Hv].
  cbn [writeLowered fst snd]. rewrite Hv. by apply IH.
Qed.

(** A tree whose names are all ASCII names of the [Name] production is
    mounted without error, node for node. *)
Lemma liveShape_xml t :
  xmlNames t = true → ∃ t', liveShape t = Some t' ∧ size t' = size t.
Proof.
  induction t as [s | tag attrs kids IH] using Tree_ind'; intros Hx;
    [by eexists |].
  cbn [xmlNames] in Hx. apply andb_true_iff in Hx as [Hx Hkids].
  apply andb_true_iff in Hx as [Htag Hattrs].
  destruct (xmlName_valid tag Htag) as [Hval _].
  destruct (writeLowered_xml _ Hattrs ∅) as [attrs' Hw].
  assert (Hall : ∃ kids', mapM liveShape kids = Some kids'
                          ∧ sum_list (map size kids') = sum_list (map size kids)).
  { clear Htag Hattrs Hval Hw.
    induction IH as [| k kids Hk _ IHkids]; [by exists [] |].
    simpl in Hkids. apply andb_true_iff in Hkids as [Hk' Hkids].
    destruct (Hk Hk') as (k' & Hshape & Hsize).
    destruct (IHkids Hkids) as (kids' & Hshapes & Hsizes).
    exists (k' :: kids'). cbn [mapM]. rewrite Hshape. cbn [mbind option_bind].
    rewrite Hshapes. cbn [mbind option_bind mret option_ret fmap option_fmap option_map].
    split; [done |]. simpl in *. lia. }
  destruct Hall as (kids' & Hshapes & Hsizes).
  exists (Element (asciiLowercase tag) attrs' kids').
  cbn [liveShape]. rewrite Hval, Hw, Hshapes. cbn [size]. by rewrite Hsizes.
Qed.



(** C10 (as amended). Mounting a virtual tree [t] of the data model
    whose tag and attribute names are all valid names (ASCII names of
    the [Name] production), with an absent container, returns normally
    and yields no value; a live subtree is built in [size t] new nodes
    (of the shape [t] itself when the names of [t] are in lower case),
    but every node that existed before is unchanged, so no existing node
    refers to it. *)
Theorem mount_without_container (t : Tree) (fuel : nat) (v : VNode) (w : World) :
  vrep (vheap w) v t →
  xmlNames t = true →
  height t ≤ fuel →
  ∃ w' t',
    renderVDomToDom fuel v None w = Return tt w'
    ∧ nodes w' = nodes w ++ build (length (nodes w)) t'
    ∧ length (nodes w') = length (nodes w) + size t
    ∧ lrep (nodes w') (length (nodes w)) t'
    ∧ (∀ id, id < length (nodes w) → nodes w' !! id = nodes w !! id)
    ∧ vheap w' = vheap w
    ∧ (plainNames t = true → t' = t).
Proof.
  destruct w as [h d l]. cbn [vheap nodes]. intros Hv Hx Hfuel.
  destruct (liveShape_xml t Hx) as (t' & Hshape & Hsize).
  destruct (run_mount_detached t t' fuel v h d l Hv Hfuel Hshape) as (cs & _ & ->).
  eexists. exists t'. split; [reflexivity |]. cbn [vheap nodes].
  split; [done |]. split; [by rewrite length_app, length_build, Hsize |].
  split; [pose proof (lrep_build t' d []) as H; by rewrite app_nil_r in H |].
  split; [intros id Hid; by apply lookup_app_l |].
  split; [done |].
  intros Hplain. rewrite (liveShape_plain t Hplain) in Hshape. congruence.
Qed.

(** C10 as stated fails: with an absent container, mounting the tree
    [div] whose attribute name contains a space does not complete
    without error; [setAttribute] throws an [InvalidCharacterError]. *)
Lemma mount_without_container_throws :
  vrep (vheap spacedNamePage) (VRef 0) (Element "div" {["my attr" := "x"]} [])
  ∧ renderVDomToDom 2 (VRef 0) None spacedNamePage
    = Throw InvalidCharacterError
        (mkWorld (vheap spacedNamePage)
           [ mkLiveNode (ElementNode "body") ∅ [];
             mkLiveNode (ElementNode "div") ∅ [] ]
           [ CreateElement "div" ]).
Proof.
  split.
  - eapply vrep_element; [reflexivity | constructor].
  - vm_compute. reflexivity.
Qed.

(** ** The node constructor *)

(** C8 (as amended). [createVDomNode] returns a reference to a new
    object whose [type], [props] and [children] fields are the supplied
    arguments, whatever they are; in particular an absent [props]
    argument stays absent.  No existing object and no live node is
    touched. *)
Theorem createVDomNode_fields (ty : string) (p : JsProps) (ch : JsChildren) (w : World) :
  ∃ a w',
    createVDomNode ty p ch w = Return (VRef a) w'
    ∧ type <$> vheap w' !! a = Some ty
    ∧ props <$> vheap w' !! a = Some p
    ∧ children <$> vheap w' !! a = Some ch
    ∧ take (length (vheap w)) (vheap w') = vheap w
    ∧ nodes w' = nodes w
    ∧ calls w' = calls w.
Proof.
  exists (length (vheap w)). eexists. split; [reflexivity |]. cbn [vheap nodes calls].
  rewrite lookup_middle, take_app_length. done.
Qed.

(** C8 as stated fails: with the attributes argument absent, the node's
    attribute mapping is not the empty mapping. *)
Lemma createVDomNode_no_default :
  ¬ (∀ (ty : string) (ch : JsChildren) (w : World),
       ∃ a w', createVDomNode ty None ch w = Return (VRef a) w'
               ∧ props <$> vheap w' !! a = Some (Some ∅)).
Proof.
  intros H. destruct (H "div" (ChildList []) (mkWorld [] [] [])) as (a & w' & Hrun & Hp).
  inversion Hrun; subst. simpl in Hp. discriminate.
Qed.

(** ** Diff-and-patch: absent current node, text values *)


(** C4. For text values [p] (previous) and [q] (current) and a
    container whose first child is [k]: when the values differ, the
    first child is replaced by a newly created text node carrying [q];
    when they are equal nothing happens at all, so the container still
    holds the very same node [k]. *)
Theorem diff_text_values (fuel : nat) (p q : string) (c : nat) (w : World)
    (tag : string) (a : gmap string string) (k : nat) (rest : list nat) :
  nodes w !! c = Some (mkLiveNode (ElementNode tag) a (k :: rest)) →
  diffAndUpdate (S fuel) (Some (VText p)) (Some (VText q)) (Some c) w
  = if decide (p = q) then Return tt w
    else Return tt
           (mkWorld (vheap w)
              (<[c := mkLiveNode (ElementNode tag) a (length (nodes w) :: rest)]>
                 (nodes w ++ [mkLiveNode (TextNode q) ∅ []]))
              (calls w ++ [CreateTextNode q; ReplaceChild c (length (nodes w)) k])).
Proof.
  destruct w as [h d l]. cbn [vheap nodes calls]. intros Hc.
  cbn [diffAndUpdate isTextNode orb]. unfold strictNeq.
  destruct (decide (p = q)) as [-> | Hne].
  - by rewrite bool_decide_eq_true_2.
  - rewrite bool_decide_eq_false_2 by congruence. cbn [negb].
    unfold bind at 1. rewrite run_createTextNode. cbn [toString replaceFirstChild].
    assert (Hc' : (d ++ [mkLiveNode (TextNode q) ∅ []]) !! c
                  = Some (mkLiveNode (ElementNode tag) a (k :: rest))).
    { rewrite lookup_app_l; [done | by eapply lookup_lt_Some]. }
    unfold bind at 1. erewrite run_firstChild by exact Hc'. cbn [childNodes head].
    erewrite run_replaceChild by exact Hc'.
    by rewrite <- app_assoc.
Qed.

(** A live subtree has one shape only. *)
Lemma lrep_functional d t1 :
  ∀ id t2, lrep d id t1 → lrep d id t2 → t1 = t2.
Proof.
  induction t1 as [s | tag attrs kids IH] using Tree_ind'; intros id t2 H1 H2.
  - inversion H1 as [? ? Hd1 | ]; subst.
    inversion H2 as [? ? Hd2 | ? ? ? ? ? Hd2]; subst; congruence.
  - inversion H1 as [| ? ? ? ks ? Hd1 Hks1]; subst.
    inversion H2 as [? ? Hd2 | ? tag2 attrs2 ks2 kids2 Hd2 Hks2]; subst; [congruence |].
    assert (tag2 = tag ∧ attrs2 = attrs ∧ ks2 = ks) as (-> & -> & ->)
      by (rewrite Hd1 in Hd2; by injection Hd2).
    f_equal. clear Hd1 Hd2 H1 H2. revert kids2 Hks2.
    induction Hks1 as [| k t ks kids Hk Hks1 IHks]; intros kids2 Hks2.
    + by inversion Hks2.
    + inversion Hks2 as [| ? t' ? kids' Hk' Hks']; subst.
      inversion IH as [| ? ? IHt IHkids]; subst.
      f_equal; [by eapply IHt | by apply IHks].
Qed.

Lemma content_functional d p ts1 ts2 :
  content d p ts1 → content d p ts2 → ts1 = ts2.
Proof.
  intros (n1 & Hn1 & H1) (n2 & Hn2 & H2).
  assert (n2 = n1) as -> by congruence. clear Hn1 Hn2.
  revert ts2 H2. induction H1 as [| k t ks ts Hk _ IH]; intros ts2 H2.
  - by inversion H2.
  - inversion H2; subst. f_equal; [by eapply lrep_functional | by apply IH].
Qed.

(** ** Re-render *)

Lemma run_removeAllChildren h p tag a :
  ∀ ks (fuel : nat) d l,
    length ks < fuel →
    d !! p = Some (mkLiveNode (ElementNode tag) a ks) →
    removeAllChildren fuel (Some p) (mkWorld h d l)
    = Return tt
        (mkWorld h (<[p := mkLiveNode (ElementNode tag) a []]> d)
           (l ++ map (RemoveChild p) ks)).
Proof.
  induction ks as [| k ks IH]; intros fuel d l Hfuel Hp;
    (destruct fuel as [| fuel]; [simpl in Hfuel; lia |]);
    cbn [removeAllChildren]; unfold bind at 1;
    erewrite run_firstChild by exact Hp; cbn [childNodes head].
  - unfold ret. by rewrite list_insert_id, app_nil_r.
  - unfold bind at 1. erewrite run_removeChild_first by exact Hp.
    rewrite (IH fuel _ _); [| simpl in Hfuel; lia |].
    + rewrite list_insert_insert_eq, <- app_assoc. done.
    + apply list_lookup_insert_eq. by eapply lookup_lt_Some.
Qed.

Lemma run_reRender_shape (t t' : Tree) (fuel : nat) v p h d l tag a ks :
  vrep h v t → height t ≤ fuel → length ks < fuel → liveShape t = Some t' →
  d !! p = Some (mkLiveNode (ElementNode tag) a ks) →
  ∃ cs,
    reRenderElement fuel v (Some p) (mkWorld h d l)
    = Return tt
        (mkWorld h
           (<[p := mkLiveNode (ElementNode tag) a [length d]]> d ++ build (length d) t')
           (l ++ cs)).
Proof.
  intros Hv Hh Hks Hshape Hp. pose proof (lookup_lt_Some _ _ _ Hp) as Hlt.
  assert (Hp' : <[p := mkLiveNode (ElementNode tag) a []]> d !! p
                = Some (mkLiveNode (ElementNode tag) a []))
    by (by apply list_lookup_insert_eq).
  destruct (run_mount_into t t' fuel v p h _ (l ++ map (RemoveChild p) ks) tag a []
              Hv Hh Hshape Hp') as (cs & _ & Hrun).
  exists (map (RemoveChild p) ks ++ cs).
  unfold reRenderElement, bind.
  rewrite (run_removeAllChildren h p tag a ks fuel d l Hks Hp), Hrun.
  by rewrite length_insert, list_insert_insert_eq, app_assoc.
Qed.

Lemma run_reRender_invalid (t : Tree) (fuel : nat) v p h d l tag a ks :
  vrep h v t → height t ≤ fuel → length ks < fuel → liveShape t = None →
  d !! p = Some (mkLiveNode (ElementNode tag) a ks) →
  ∃ news cs,
    reRenderElement fuel v (Some p) (mkWorld h d l)
    = Throw InvalidCharacterError
        (mkWorld h (<[p := mkLiveNode (ElementNode tag) a []]> d ++ news) (l ++ cs)).
Proof.
  intros Hv Hh Hks Hshape Hp.
  pose proof (run_renderVDomToDom t fuel v (Some p) h
                (<[p := mkLiveNode (ElementNode tag) a []]> d)
                (l ++ map (RemoveChild p) ks) Hv Hh) as Hrun.
  rewrite Hshape in Hrun. destruct Hrun as (news & cs & Hrun).
  exists news, (map (RemoveChild p) ks ++ cs).
  unfold reRenderElement, bind.
  rewrite (run_removeAllChildren h p tag a ks fuel d l Hks Hp), Hrun.
  by rewrite app_assoc.
Qed.

Lemma content_after_reRender (t : Tree) p d tag a :
  p < length d →
  content (<[p := mkLiveNode (ElementNode tag) a [length d]]> d ++ build (length d) t)
    p [t].
Proof.
  intros Hlt. eexists. split.
  - rewrite lookup_app_l by (by rewrite length_insert).
    by apply list_lookup_insert_eq.
  - cbn [childNodes]. constructor; [| constructor].
    pose proof (lrep_build t (<[p := mkLiveNode (ElementNode tag) a [length d]]> d) [])
      as H.
    rewrite length_insert, app_nil_r in H. exact H.
Qed.

Lemma content_after_throw d p tag a news :
  p < length d →
  content (<[p := mkLiveNode (ElementNode tag) a []]> d ++ news) p [].
Proof.
  intros Hlt. eexists. split.
  - rewrite lookup_app_l by (by rewrite length_insert).
    by apply list_lookup_insert_eq.
  - constructor.
Qed.

(** C7. Re-rendering a virtual tree of the data model into an element
    container twice in a row ends like re-rendering it once, and with
    the same content of the container.  When every name of the tree is
    valid, both calls return and the container holds exactly one
    subtree, of the same shape both times (the shape of the tree itself
    when its names are in lower case); when some name is not valid, both
    calls throw the same [InvalidCharacterError] and the container is
    empty both times.  In either case every earlier child has been
    removed first. *)
Theorem reRender_idempotent (t : Tree) (fuel : nat) (v : VNode) (p : nat) (w : World)
    (tag : string) (a : gmap string string) (ks : list nat) :
  vrep (vheap w) v t →
  height t ≤ fuel → length ks < fuel → 1 < fuel →
  nodes w !! p = Some (mkLiveNode (ElementNode tag) a ks) →
  ∃ w1 w2 ts,
    ((reRenderElement fuel v (Some p) w = Return tt w1
      ∧ reRenderElement fuel v (Some p) w1 = Return tt w2)
     ∨ (reRenderElement fuel v (Some p) w = Throw InvalidCharacterError w1
        ∧ reRenderElement fuel v (Some p) w1 = Throw InvalidCharacterError w2))
    ∧ content (nodes w1) p ts
    ∧ content (nodes w2) p ts
    ∧ (∀ ts', content (nodes w1) p ts' ↔ content (nodes w2) p ts')
    ∧ (plainNames t = true →
       ts = [t] ∧ reRenderElement fuel v (Some p) w = Return tt w1).
Proof.
  destruct w as [h d l]. cbn [vheap nodes]. intros Hv Hh Hks Hfuel Hp.
  pose proof (lookup_lt_Some _ _ _ Hp) as Hlt.
  assert (Hiff : ∀ d1 d2 ts, content d1 p ts → content d2 p ts →
            ∀ ts', content d1 p ts' ↔ content d2 p ts').
  { intros d1 d2 ts H1 H2 ts'. split; intros Hts.
    - by rewrite (content_functional _ _ _ _ Hts H1).
    - by rewrite (content_functional _ _ _ _ Hts H2). }
  destruct (liveShape t) as [t' |] eqn:Hshape.
  - destruct (run_reRender_shape t t' fuel v p h d l tag a ks Hv Hh Hks Hshape Hp)
      as (cs1 & Hrun1).
    set (d1 := <[p := mkLiveNode (ElementNode tag) a [length d]]> d
               ++ build (length d) t') in *.
    assert (Hp1 : d1 !! p = Some (mkLiveNode (ElementNode tag) a [length d])).
    { unfold d1. rewrite lookup_app_l by (by rewrite length_insert).
      by apply list_lookup_insert_eq. }
    destruct (run_reRender_shape t t' fuel v p h d1 (l ++ cs1) tag a [length d]
                Hv Hh Hfuel Hshape Hp1) as (cs2 & Hrun2).
    eexists. eexists. exists [t'].
    split; [left; split; [exact Hrun1 | exact Hrun2] |]. cbn [nodes].
    assert (H1 : content d1 p [t']) by (by apply content_after_reRender).
    assert (H2 : content
                   (<[p := mkLiveNode (ElementNode tag) a [length d1]]> d1
                    ++ build (length d1) t') p [t']).
    { apply content_after_reRender. by eapply lookup_lt_Some. }
    split; [done |]. split; [done |]. split; [by eapply Hiff |].
    intros Hplain. rewrite (liveShape_plain t Hplain) in Hshape.
    injection Hshape as ->. done.
  - destruct (run_reRender_invalid t fuel v p h d l tag a ks Hv Hh Hks Hshape Hp)
      as (news1 & cs1 & Hrun1).
    set (d1 := <[p := mkLiveNode (ElementNode tag) a []]> d ++ news1) in *.
    assert (Hp1 : d1 !! p = Some (mkLiveNode (ElementNode tag) a [])).
    { unfold d1. rewrite lookup_app_l by (by rewrite length_insert).
      by apply list_lookup_insert_eq. }
    assert (H0 : length (@nil nat) < fuel) by (simpl; lia).
    destruct (run_reRender_invalid t fuel v p h d1 (l ++ cs1) tag a [] Hv Hh H0
                Hshape Hp1) as (news2 & cs2 & Hrun2).
    eexists. eexists. exists [].
    split; [right; split; [exact Hrun1 | exact Hrun2] |]. cbn [nodes].
    assert (H1 : content d1 p []) by (by apply content_after_throw).
    assert (H2 : content (<[p := mkLiveNode (ElementNode tag) a []]> d1 ++ news2) p []).
    { apply content_after_throw. by eapply lookup_lt_Some. }
    split; [done |]. split; [done |]. split; [by eapply Hiff |].
    intros Hplain. rewrite (liveShape_plain t Hplain) in Hshape. discriminate.
Qed.

(** ** The frame of every operation *)

Section Frames.
Context (n : nat) (c : option nat).

Lemma Frame_refl w : Frame n c w w.
Proof.
  split; [done |]. split; [done |]. split; [done |].
  intros id node _ Hid. by exists node.
Qed.

Lemma Frame_trans w1 w2 w3 : Frame n c w1 w2 → Frame n c w2 w3 → Frame n c w1 w3.
Proof.
  intros (Hv1 & Hl1 & Hn1 & Hk1) (Hv2 & Hl2 & Hn2 & Hk2).
  split; [| split; [| split]].
  - congruence.
  - lia.
  - intros id Hid Hc. rewrite Hn2, Hn1; done.
  - intros id node Hid Hnode.
    destruct (Hk1 id node Hid Hnode) as (node' & Hnode' & Hkind' & Hattrs').
    destruct (Hk2 id node' Hid Hnode') as (node'' & Hnode'' & Hkind'' & Hattrs'').
    exists node''. split; [done |]. split; congruence.
Qed.

(** Writing the child list of a writable node. *)
Lemma Frame_children w p node node' l' :
  writable n c p →
  nodes w !! p = Some node →
  nodeKind node' = nodeKind node →
  attributes node' = attributes node →
  Frame n c w (mkWorld (vheap w) (<[p := node']> (nodes w)) l').
Proof.
  intros Hp Hnode Hkind Hattrs. split; [done |]. cbn [vheap nodes]. split; [| split].
  - by rewrite length_insert.
  - intros id Hid Hc. apply list_lookup_insert_ne.
    destruct Hp as [Hp | Hp]; [lia | congruence].
  - intros id node0 Hid Hnode0. destruct (decide (id = p)) as [-> | Hne].
    + exists node'. split; [apply list_lookup_insert_eq; by eapply lookup_lt_Some |].
      assert (node0 = node) as -> by congruence. done.
    + exists node0. by rewrite list_lookup_insert_ne.
Qed.

(** Writing a node created after the frame was fixed. *)
Lemma Frame_new_node w p node' l' :
  n ≤ p →
  Frame n c w (mkWorld (vheap w) (<[p := node']> (nodes w)) l').
Proof.
  intros Hp. split; [done |]. cbn [vheap nodes]. split; [| split].
  - by rewrite length_insert.
  - intros id Hid Hc. apply list_lookup_insert_ne. lia.
  - intros id node0 Hid Hnode0. exists node0.
    rewrite list_lookup_insert_ne by lia. done.
Qed.

Lemma framed_ret {A} (Q : A → Prop) a : Q a → framed n c Q (ret a).
Proof. intros HQ w _. split; [done | apply Frame_refl]. Qed.

Lemma framed_throw {A} (Q : A → Prop) e : framed n c Q (throw e).
Proof. intros w _. apply Frame_refl. Qed.

Lemma framed_abort {A} (Q : A → Prop) : framed n c Q abort.
Proof. by intros w _. Qed.

Lemma framed_bind {A B} (P : A → Prop) (Q : B → Prop) (m : M A) (k : A → M B) :
  framed n c P m → (∀ a, P a → framed n c Q (k a)) → framed n c Q (bind m k).
Proof.
  intros Hm Hk w Hw. unfold bind. specialize (Hm w Hw).
  destruct (m w) as [a w' | e w' |]; [| done | done].
  destruct Hm as [HP HF].
  assert (Hw' : n ≤ length (nodes w')) by (destruct HF as (_ & ? & _); lia).
  specialize (Hk a HP w' Hw').
  destruct (k a w') as [b w'' | e w'' |]; [| | done].
  - destruct Hk as [HQ HF']. split; [done | by eapply Frame_trans].
  - by eapply Frame_trans.
Qed.

Lemma framed_weaken {A} (P Q : A → Prop) (m : M A) :
  (∀ a, P a → Q a) → framed n c P m → framed n c Q m.
Proof.
  intros HPQ Hm w Hw. specialize (Hm w Hw).
  destruct (m w); [| done | done]. destruct Hm. split; auto.
Qed.

Lemma framed_then {A B} (Q : B → Prop) (m : M A) (k : A → M B) :
  framed n c (λ _, True) m → (∀ a, framed n c Q (k a)) → framed n c Q (bind m k).
Proof. intros Hm Hk. eapply framed_bind; [exact Hm | auto]. Qed.

Lemma framed_forEach {A} (f : A → M unit) (l : list A) :
  (∀ x, framed n c (λ _, True) (f x)) → framed n c (λ _, True) (forEach f l).
Proof.
  intros Hf. induction l as [| x l IH]; simpl.
  - by apply framed_ret.
  - apply framed_then; auto.
Qed.

Lemma framed_forEachFrom {A} (f : A → nat → M unit) (l : list A) :
  (∀ x i, framed n c (λ _, True) (f x i)) →
  ∀ i, framed n c (λ _, True) (forEachFrom i f l).
Proof.
  intros Hf. induction l as [| x l IH]; intros i; simpl.
  - by apply framed_ret.
  - apply framed_then; auto.
Qed.

(** *** The host *)

Lemma framed_alloc node : framed n c (λ id, n ≤ id) (alloc node).
Proof.
  intros w Hw. unfold alloc. split; [done |].
  split; [done |]. cbn [vheap nodes set_nodes]. split; [| split].
  - rewrite length_app. lia.
  - intros id Hid _. apply lookup_app_l. lia.
  - intros id node0 Hid Hnode0. exists node0. rewrite lookup_app_l by lia. done.
Qed.

Lemma framed_logCall call : framed n c (λ _, True) (logCall call).
Proof.
  intros w _. split; [done |]. split; [done |]. split; [done |]. split; [done |].
  intros id node _ Hid. by exists node.
Qed.

Lemma framed_createTextNode s : framed n c (λ id, n ≤ id) (createTextNode s).
Proof. apply framed_then; [apply framed_logCall | intros _; apply framed_alloc]. Qed.

Lemma framed_createElement tag : framed n c (λ id, n ≤ id) (createElement tag).
Proof.
  unfold createElement. destruct (validElementName tag); [| apply framed_throw].
  apply framed_then; [apply framed_logCall | intros _; apply framed_alloc].
Qed.

Lemma framed_firstChild p : framed n c (λ _, True) (firstChild p).
Proof.
  intros w _. unfold firstChild, bind, getNode, ret.
  destruct (nodes w !! p); [| done]. split; [done | apply Frame_refl].
Qed.

Lemma framed_setAttribute e name value :
  n ≤ e → framed n c (λ _, True) (setAttribute e name value).
Proof.
  intros He w _. unfold setAttribute, bind, getNode.
  destruct (nodes w !! e) as [node |]; [| done].
  destruct (nodeKind node); [apply Frame_refl |].
  destruct (validAttributeName name); [| apply Frame_refl].
  split; [done |]. by eapply (Frame_new_node w e).
Qed.

Lemma framed_removeAttribute e name :
  n ≤ e → framed n c (λ _, True) (removeAttribute e name).
Proof.
  intros He w _. unfold removeAttribute, bind, getNode.
  destruct (nodes w !! e) as [node |]; [| done].
  destruct (nodeKind node); [apply Frame_refl |].
  split; [done |]. by eapply (Frame_new_node w e).
Qed.

Lemma framed_appendChild p child :
  writable n c p → framed n c (λ _, True) (appendChild p child).
Proof.
  intros Hp w _. unfold appendChild, bind, getNode.
  destruct (nodes w !! p) as [node |] eqn:Hnode; [| done].
  destruct (nodeKind node) eqn:Hkind; [apply Frame_refl |].
  split; [done |]. eapply (Frame_children w p node); [done | exact Hnode | by rewrite ?Hkind | done].
Qed.

Lemma framed_replaceChild p new old :
  writable n c p → framed n c (λ _, True) (replaceChild p new old).
Proof.
  intros Hp w _. unfold replaceChild, bind, getNode.
  destruct (nodes w !! p) as [node |] eqn:Hnode; [| done].
  destruct new, old; try apply Frame_refl.
  destruct (nodeKind node) eqn:Hkind; [apply Frame_refl |].
  case_decide; [| apply Frame_refl].
  split; [done |]. eapply (Frame_children w p node); [done | exact Hnode | by rewrite ?Hkind | done].
Qed.

Lemma framed_removeChild p child :
  writable n c p → framed n c (λ _, True) (removeChild p child).
Proof.
  intros Hp w _. unfold removeChild, bind, getNode.
  destruct (nodes w !! p) as [node |] eqn:Hnode; [| done].
  destruct child; [| apply Frame_refl].
  case_decide; [| apply Frame_refl].
  split; [done |]. eapply (Frame_children w p node); [done | exact Hnode | by rewrite ?Hkind | done].
Qed.

Lemma framed_clearInnerHTML p :
  writable n c p → framed n c (λ _, True) (clearInnerHTML p).
Proof.
  intros Hp w _. unfold clearInnerHTML, bind, getNode.
  destruct (nodes w !! p) as [node |] eqn:Hnode; [| done].
  destruct (nodeKind node) eqn:Hkind; [split; [done | apply Frame_refl] |].
  split; [done |]. eapply (Frame_children w p node); [done | exact Hnode | by rewrite ?Hkind | done].
Qed.
End Frames.

Section ModuleFrames.
Context (n : nat) (c : option nat).

Lemma framed_getObject a : framed n c (λ _, True) (getObject a).
Proof.
  intros w _. unfold getObject. destruct (vheap w !! a); [| done].
  split; [done | apply Frame_refl].
Qed.

Lemma framed_readType v : framed n c (λ _, True) (readType v).
Proof.
  destruct v as [[s | a] |]; simpl;
    [by apply framed_ret | | apply framed_throw].
  apply framed_then; [apply framed_getObject | intros; by apply framed_ret].
Qed.

Lemma framed_readProps v : framed n c (λ _, True) (readProps v).
Proof.
  destruct v as [[s | a] |]; simpl;
    [by apply framed_ret | | apply framed_throw].
  apply framed_then; [apply framed_getObject | intros; by apply framed_ret].
Qed.

Lemma framed_readChildren v : framed n c (λ _, True) (readChildren v).
Proof.
  destruct v as [[s | a] |]; simpl;
    [by apply framed_ret | | apply framed_throw].
  apply framed_then; [apply framed_getObject | intros; by apply framed_ret].
Qed.

Lemma framed_toObject p : framed n c (λ _, True) (toObject p).
Proof. destruct p; simpl; [by apply framed_ret | apply framed_throw]. Qed.

Lemma framed_childrenArray ch : framed n c (λ _, True) (childrenArray ch).
Proof.
  destruct ch as [[s | l] |]; simpl;
    [apply framed_throw | by apply framed_ret | apply framed_throw].
Qed.

Lemma framed_childAt ch i : framed n c (λ _, True) (childAt ch i).
Proof.
  destruct ch as [[s | l] |]; simpl;
    [by apply framed_ret | by apply framed_ret | apply framed_throw].
Qed.

Lemma framed_updateDomAttributes e oldProps newProps :
  n ≤ e → framed n c (λ _, True) (updateDomAttributes e oldProps newProps).
Proof.
  intros He. unfold updateDomAttributes, Object_keys, Object_entries.
  apply framed_then.
  { apply framed_then; [apply framed_toObject | intros; by apply framed_ret]. }
  intros keys. apply framed_then.
  { apply framed_forEach. intros name.
    apply framed_then; [apply framed_toObject |]. intros new.
    destruct (negb (inOp name new));
      [by apply framed_removeAttribute | by apply framed_ret]. }
  intros _. apply framed_then.
  { apply framed_then; [apply framed_toObject | intros; by apply framed_ret]. }
  intros entries. apply framed_forEach. intros [name value].
  apply framed_then; [apply framed_toObject |]. intros old.
  case_decide; [by apply framed_setAttribute | by apply framed_ret].
Qed.

Lemma framed_appendTo container e :
  (∀ p, container = Some p → writable n c p) →
  framed n c (λ _, True)
    (match container with
     | Some p => appendChild p e
     | None => ret tt
     end).
Proof.
  intros Hc. destruct container as [p |];
    [apply framed_appendChild; auto | by apply framed_ret].
Qed.

Lemma framed_renderVDomToDom fuel :
  ∀ v container,
    (∀ p, container = Some p → writable n c p) →
    framed n c (λ _, True) (renderVDomToDom fuel v container).
Proof.
  induction fuel as [| fuel IH]; intros v container Hc; [apply framed_abort |].
  cbn [renderVDomToDom].
  eapply framed_bind with (P := λ e, writable n c e);
    [| intros e He; by apply framed_appendTo].
  destruct (isTextNode (Some v)).
  { eapply framed_weaken; [| apply framed_createTextNode]. intros e He. by left. }
  apply framed_then; [apply framed_readType |]. intros ty.
  eapply framed_bind; [apply framed_createElement |]. intros e He. cbv beta in He.
  assert (Hw : writable n c e) by (by left).
  apply framed_then; [apply framed_readProps |]. intros newProps.
  apply framed_then; [by apply framed_updateDomAttributes |]. intros _.
  apply framed_then; [apply framed_readChildren |]. intros ch.
  apply framed_then; [apply framed_childrenArray |]. intros cs.
  apply framed_then; [| intros _; by apply framed_ret].
  apply framed_forEach. intros child. apply IH. intros p [= <-]. done.
Qed.

Lemma framed_removeAllChildren fuel :
  ∀ container,
    (∀ p, container = Some p → writable n c p) →
    framed n c (λ _, True) (removeAllChildren fuel container).
Proof.
  induction fuel as [| fuel IH]; intros container Hc; [apply framed_abort |].
  cbn [removeAllChildren]. destruct container as [p |]; [| by apply framed_ret].
  apply framed_then; [apply framed_firstChild |]. intros [k |]; [| by apply framed_ret].
  apply framed_then; [apply framed_removeChild; auto | intros _; by apply IH].
Qed.

Lemma framed_reRenderElement fuel v container :
  (∀ p, container = Some p → writable n c p) →
  framed n c (λ _, True) (reRenderElement fuel v container).
Proof.
  intros Hc. apply framed_then;
    [by apply framed_removeAllChildren | intros _; by apply framed_renderVDomToDom].
Qed.

Lemma framed_replaceFirstChild container new :
  (∀ p, container = Some p → writable n c p) →
  framed n c (λ _, True) (replaceFirstChild container new).
Proof.
  intros Hc. destruct container as [p |]; simpl; [| apply framed_throw].
  apply framed_then; [apply framed_firstChild |]. intros old.
  apply framed_replaceChild; auto.
Qed.

Lemma framed_diffAndUpdate fuel prev cur container :
  (∀ p, container = Some p → writable n c p) →
  framed n c (λ _, True) (diffAndUpdate fuel prev cur container).
Proof.
  intros Hc. destruct fuel as [| fuel]; [apply framed_abort |].
  cbn [diffAndUpdate]. destruct cur as [cur |].
  2: { destruct container as [p |];
         [apply framed_clearInnerHTML; auto | apply framed_throw]. }
  destruct (isTextNode prev || isTextNode (Some cur)).
  { destruct (strictNeq prev (Some cur)); [| by apply framed_ret].
    apply framed_then; [| intros e; by apply framed_replaceFirstChild].
    eapply framed_weaken; [| apply framed_createTextNode]. done. }
  apply framed_then; [apply framed_readType |]. intros prevType.
  apply framed_then; [apply framed_readType |]. intros curType.
  case_decide.
  { apply framed_then; [| intros _; by apply framed_replaceFirstChild].
    apply framed_renderVDomToDom. intros p [=]. }
  apply framed_then.
  { destruct container as [p |]; simpl;
      [apply framed_firstChild | apply framed_throw]. }
  intros domElement.
  eapply framed_bind with (P := λ _, False); [apply framed_throw | intros ? []].
Qed.

End ModuleFrames.

(** C9. Mount, re-render and diff leave the virtual tree as it was, leave
    every live node that existed before the call and is not the container
    exactly as it was, and leave the kind and the attributes of every
    live node that existed before the call, the container included, as
    they were: of what was there before, only the container's list of
    children can change. *)
Theorem operations_frame (fuel : nat) (v : VNode) (prev cur : option VNode)
    (container : option nat) (w w' : World) :
  final (renderVDomToDom fuel v container w) = Some w'
  ∨ final (reRenderElement fuel v container w) = Some w'
  ∨ final (diffAndUpdate fuel prev cur container w) = Some w' →
  vheap w' = vheap w
  ∧ (∀ id, id < length (nodes w) → Some id ≠ container →
           nodes w' !! id = nodes w !! id)
  ∧ (∀ id node, nodes w !! id = Some node →
       ∃ node', nodes w' !! id = Some node'
                ∧ nodeKind node' = nodeKind node
                ∧ attributes node' = attributes node).
Proof.
  assert (Hc : ∀ p, container = Some p → writable (length (nodes w)) container p)
    by (intros p ->; by right).
  assert (Hfin : ∀ m : M unit,
             framed (length (nodes w)) container (λ _, True) m →
             final (m w) = Some w' → Frame (length (nodes w)) container w w').
  { intros m Hm Hf. specialize (Hm w (le_n _)).
    destruct (m w) as [[] w1 | e w1 |]; simpl in Hf; [| | done].
    - destruct Hm as [_ HF]. congruence.
    - congruence. }
  assert (Hgoal : Frame (length (nodes w)) container w w' →
            vheap w' = vheap w
            ∧ (∀ id, id < length (nodes w) → Some id ≠ container →
                     nodes w' !! id = nodes w !! id)
            ∧ (∀ id node, nodes w !! id = Some node →
                 ∃ node', nodes w' !! id = Some node'
                          ∧ nodeKind node' = nodeKind node
                          ∧ attributes node' = attributes node)).
  { intros (Hv & _ & Hn & Hk). split; [done |]. split; [done |].
    intros id node Hid. eapply Hk; [by eapply lookup_lt_Some | done]. }
  intros [H | [H | H]]; apply Hgoal; eapply Hfin in H; eauto.
  - by apply framed_renderVDomToDom.
  - by apply framed_reRenderElement.
  - by apply framed_diffAndUpdate.
Qed.

Lemma operations_frame_witness :
  ∃ w', final (reRenderElement 5 (VRef 1) (Some 0) busyPage) = Some w'
        ∧ nodes w' !! 0
          = Some (mkLiveNode (ElementNode "body") {["lang" := "en"]} [4])
        ∧ vheap w' = vheap busyPage
        ∧ (∀ id, id < length (nodes busyPage) → Some id ≠ Some 0 →
                 nodes w' !! id = nodes busyPage !! id)
        ∧ (∀ id node, nodes busyPage !! id = Some node →
             ∃ node', nodes w' !! id = Some node'
                      ∧ nodeKind node' = nodeKind node
                      ∧ attributes node' = attributes node).
Proof.
  eexists. split; [vm_compute; reflexivity |]. split; [vm_compute; reflexivity |].
  apply (operations_frame 5 (VRef 1) None None (Some 0) busyPage).
  right. left. vm_compute. reflexivity.
Defined.

(** ** The attribute diff in general *)

Lemma plainKeys_entries (m : gmap string string) :
  plainKeys m = true → Forall (λ kv : string * string, htmlName kv.1 = true) (map_to_list m).
Proof.
  unfold plainKeys. rewrite forallb_forall, Forall_forall.
  intros H kv Hin. apply H. by apply list_elem_of_In.
Qed.

Lemma plainKeys_keys (m : gmap string string) :
  plainKeys m = true → Forall (λ k, htmlName k = true) (map fst (map_to_list m)).
Proof.
  intros H. apply plainKeys_entries in H.
  induction H as [| kv kvs Hk _ IH]; constructor; done.
Qed.

Lemma run_removeLoop h e tag ks (new : gmap string string) :
  ∀ (keys : list string) d a l,
    Forall (λ k, htmlName k = true) keys →
    d !! e = Some (mkLiveNode (ElementNode tag) a ks) →
    forEach (λ propName,
               new' <- toObject (Some new) ;;
               if negb (inOp propName new') then removeAttribute e propName
               else ret tt) keys (mkWorld h d l)
    = Return tt
        (mkWorld h
           (<[e := mkLiveNode (ElementNode tag)
                     (deleteAll a (filter (λ name, inOp name new = false) keys)) ks]> d)
           (l ++ map (RemoveAttribute e) (filter (λ name, inOp name new = false) keys))).
Proof.
  induction keys as [| k keys IH]; intros d a l Hall Hd.
  - simpl. unfold ret. by rewrite list_insert_id, app_nil_r.
  - inversion Hall as [| ? ? Hk Hall']; subst.
    destruct (htmlName_spec k Hk) as (_ & _ & Hlow).
    cbn [forEach]. unfold bind at 1. unfold bind at 1. cbn [toObject ret].
    rewrite filter_cons. destruct (inOp k new) eqn:Hin; cbn [negb].
    + rewrite decide_False by done. by apply IH.
    + rewrite decide_True by done.
      rewrite (run_removeAttribute _ _ _ _ _ _ _ _ Hd). rewrite Hlow.
      rewrite IH with (a := delete k a); [| done |].
      * rewrite list_insert_insert_eq. cbn [map]. rewrite <- app_assoc. done.
      * apply list_lookup_insert_eq. by eapply lookup_lt_Some.
Qed.

Lemma run_writeLoop h e tag ks (old : gmap string string) :
  ∀ (entries : list (string * string)) d a l,
    Forall (λ kv : string * string, htmlName kv.1 = true) entries →
    d !! e = Some (mkLiveNode (ElementNode tag) a ks) →
    forEach (λ '(propName, propValue),
               old' <- toObject (Some old) ;;
               if decide (getProp old' propName ≠ PString propValue)
               then setAttribute e propName propValue
               else ret tt) entries (mkWorld h d l)
    = Return tt
        (mkWorld h
           (<[e := mkLiveNode (ElementNode tag)
                     (writeAll a (filter (λ kv, getProp old kv.1 ≠ PString kv.2) entries))
                     ks]> d)
           (l ++ map (λ kv, SetAttribute e kv.1 kv.2)
                  (filter (λ kv, getProp old kv.1 ≠ PString kv.2) entries))).
Proof.
  induction entries as [| [k v] entries IH]; intros d a l Hall Hd.
  - simpl. unfold ret. by rewrite list_insert_id, app_nil_r.
  - inversion Hall as [| ? ? Hk Hall']; subst. cbn [fst] in Hk.
    destruct (htmlName_spec k Hk) as (_ & Hvalid & Hlow).
    cbn [forEach]. unfold bind at 1. unfold bind at 1. cbn [toObject ret].
    rewrite filter_cons. cbn [fst snd].
    destruct (decide (getProp old k ≠ PString v)) as [Hne | Heq].
    + rewrite (run_setAttribute _ _ _ _ _ _ _ _ _ Hvalid Hd). rewrite Hlow.
      rewrite IH with (a := <[k := v]> a); [| done |].
      * rewrite list_insert_insert_eq. cbn [map]. rewrite <- app_assoc. done.
      * apply list_lookup_insert_eq. by eapply lookup_lt_Some.
    + by apply IH.
Qed.

(** The attribute diff on an element, for any two attribute mappings
    whose names are plain. *)
Lemma run_updateDomAttributes h d l e tag ks (a old new : gmap string string) :
  plainKeys old = true → plainKeys new = true →
  d !! e = Some (mkLiveNode (ElementNode tag) a ks) →
  updateDomAttributes e (Some old) (Some new) (mkWorld h d l)
  = Return tt
      (mkWorld h
         (<[e := mkLiveNode (ElementNode tag)
                   (writeAll (deleteAll a (removedNames old new)) (writtenEntries old new))
                   ks]> d)
         ((l ++ map (RemoveAttribute e) (removedNames old new))
          ++ map (λ kv, SetAttribute e kv.1 kv.2) (writtenEntries old new))).
Proof.
  intros Hold Hnew Hd. unfold updateDomAttributes, Object_keys, Object_entries.
  unfold bind at 1. unfold bind at 1. cbn [toObject ret].
  unfold bind at 1.
  pose proof (run_removeLoop h e tag ks new (map fst (map_to_list old)) d a l
                (plainKeys_keys old Hold) Hd) as H1.
  cbn [toObject] in H1. rewrite H1. clear H1.
  unfold bind at 1. unfold bind at 1. cbn [toObject ret].
  pose proof (run_writeLoop h e tag ks old (map_to_list new)) as H2.
  cbn [toObject] in H2. erewrite H2; [| by apply plainKeys_entries |]; last first.
  { apply list_lookup_insert_eq. by eapply lookup_lt_Some. }
  by rewrite list_insert_insert_eq.
Qed.

(** The two loops make no call when no name has to be removed and no
    pair has to be written, whatever the names are. *)
Lemma run_removeLoop_none e (new : gmap string string) (w : World) :
  ∀ keys : list string,
    Forall (λ k, inOp k new = true) keys →
    forEach (λ propName,
               new' <- toObject (Some new) ;;
               if negb (inOp propName new') then removeAttribute e propName
               else ret tt) keys w
    = Return tt w.
Proof.
  induction 1 as [| k keys Hk _ IH]; [done |].
  cbn [forEach]. unfold bind at 1. unfold bind at 1. cbn [toObject ret].
  rewrite Hk. exact IH.
Qed.

Lemma run_writeLoop_none e (old : gmap string string) (w : World) :
  ∀ entries : list (string * string),
    Forall (λ kv : string * string, getProp old kv.1 = PString kv.2) entries →
    forEach (λ '(propName, propValue),
               old' <- toObject (Some old) ;;
               if decide (getProp old' propName ≠ PString propValue)
               then setAttribute e propName propValue
               else ret tt) entries w
    = Return tt w.
Proof.
  induction 1 as [| [k v] entries Hk _ IH]; [done |].
  cbn [forEach]. unfold bind at 1. unfold bind at 1. cbn [toObject ret].
  cbn [fst snd] in Hk.
  destruct (decide (getProp old k ≠ PString v)) as [Hne | _]; [done | exact IH].
Qed.

Lemma inOp_false name (new : gmap string string) :
  inOp name new = false ↔ new !! name = None ∧ name ∉ Object_prototype_names.
Proof.
  unfold inOp. rewrite orb_false_iff, !bool_decide_eq_false.
  by rewrite <- eq_None_not_Some.
Qed.

Lemma getProp_ne (old : gmap string string) name value :
  getProp old name ≠ PString value ↔ old !! name ≠ Some value.
Proof.
  unfold getProp. destruct (old !! name) as [v |].
  - split; congruence.
  - case_bool_decide; split; congruence.
Qed.

Lemma elem_of_removedNames (old new : gmap string string) name :
  name ∈ removedNames old new
  ↔ is_Some (old !! name) ∧ new !! name = None ∧ name ∉ Object_prototype_names.
Proof.
  unfold removedNames. rewrite list_elem_of_filter, inOp_false.
  change (map fst (map_to_list old)) with ((map_to_list old).*1).
  rewrite list_elem_of_fmap. split.
  - intros (Hnew & [k v] & -> & Hin). apply elem_of_map_to_list in Hin.
    split; [by eexists | done].
  - intros ([v Hv] & Hnew). split; [done |].
    exists (name, v). split; [done | by apply elem_of_map_to_list].
Qed.

Lemma elem_of_writtenEntries (old new : gmap string string) name value :
  (name, value) ∈ writtenEntries old new
  ↔ new !! name = Some value ∧ old !! name ≠ Some value.
Proof.
  unfold writtenEntries. rewrite list_elem_of_filter, elem_of_map_to_list.
  cbn [fst snd]. rewrite getProp_ne. tauto.
Qed.

Lemma NoDup_fst_writtenEntries (old new : gmap string string) :
  NoDup (writtenEntries old new).*1.
Proof.
  apply NoDup_fmap_fst.
  - intros k v1 v2 H1 H2.
    apply elem_of_writtenEntries in H1 as [H1 _].
    apply elem_of_writtenEntries in H2 as [H2 _]. congruence.
  - apply NoDup_filter, NoDup_map_to_list.
Qed.

Lemma lookup_deleteAll names :
  ∀ (a : gmap string string) name,
    deleteAll a names !! name = if decide (name ∈ names) then None else a !! name.
Proof.
  induction names as [| k names IH]; intros a name.
  - rewrite decide_False; [done | apply not_elem_of_nil].
  - unfold deleteAll in *. cbn [foldl]. rewrite IH.
    destruct (decide (name ∈ names)) as [Hin | Hnin].
    + rewrite decide_True; [done | by apply list_elem_of_further].
    + destruct (decide (name = k)) as [-> | Hne].
      * rewrite decide_True by apply list_elem_of_here. apply lookup_delete_eq.
      * rewrite decide_False by (rewrite elem_of_cons; tauto).
        by apply lookup_delete_ne.
Qed.

(** When the element carries the old mapping and no name that the diff
    should remove is an inherited property name, the element ends with
    exactly the new mapping. *)
Lemma attributes_after_diff (old new : gmap string string) :
  (∀ name, is_Some (old !! name) → new !! name = None →
           name ∉ Object_prototype_names) →
  writeAll (deleteAll old (removedNames old new)) (writtenEntries old new) = new.
Proof.
  intros Hplain. rewrite writeAll_union by apply NoDup_fst_writtenEntries.
  apply map_eq. intros k.
  destruct ((list_to_map (writtenEntries old new) : gmap string string) !! k)
    as [v |] eqn:Hw.
  - erewrite lookup_union_Some_l by exact Hw.
    apply elem_of_list_to_map in Hw; [| apply NoDup_fst_writtenEntries].
    apply elem_of_writtenEntries in Hw as [Hw _]. done.
  - rewrite lookup_union_r by exact Hw. rewrite lookup_deleteAll.
    apply not_elem_of_list_to_map in Hw.
    destruct (new !! k) as [v |] eqn:Hnew.
    + rewrite decide_False.
      * destruct (decide (old !! k = Some v)) as [? | Hne]; [done |].
        exfalso. apply Hw. apply list_elem_of_fmap. exists (k, v).
        split; [done |]. by apply elem_of_writtenEntries.
      * rewrite elem_of_removedNames. intros (_ & ? & _). congruence.
    + destruct (old !! k) as [v |] eqn:Hold.
      * rewrite decide_True; [done |]. apply elem_of_removedNames.
        split; [by eexists |]. split; [done |]. apply Hplain; [by eexists | done].
      * by destruct (decide _).
Qed.

(** ** Diff-and-patch on two element nodes *)

(** Different tags: the new subtree is built detached, the call of
    [renderVDomToDom] yields [undefined], and [replaceChild] rejects it;
    the container keeps the children it had. *)
Lemma run_diff_tag_change (fuel : nat) pa ca po tag attrs kids p node h d l :
  h !! pa = Some po →
  vrep h (VRef ca) (Element tag attrs kids) →
  plainNames (Element tag attrs kids) = true →
  type po ≠ tag →
  height (Element tag attrs kids) ≤ fuel →
  d !! p = Some node →
  ∃ cs, Forall (λ call, constructive call = true) cs
        ∧ diffAndUpdate (S fuel) (Some (VRef pa)) (Some (VRef ca)) (Some p) (mkWorld h d l)
          = Throw TypeError
              (mkWorld h (d ++ build (length d) (Element tag attrs kids)) (l ++ cs)).
Proof.
  intros Hpa Hv Hplain Hne Hfuel Hp.
  assert (Hca : ∃ vs, h !! ca = Some (mkVObject tag (Some attrs) (ChildList vs)))
    by (inversion Hv; eauto).
  destruct Hca as [vs Hca].
  destruct (run_mount_detached _ _ fuel (VRef ca) h d l Hv Hfuel
              (liveShape_plain _ Hplain)) as (cs & Hcs & Hrun).
  exists cs. split; [done |].
  cbn [diffAndUpdate isTextNode orb readType].
  unfold bind at 1. unfold bind at 1. unfold getObject at 1. cbn [vheap].
  rewrite Hpa. cbn [ret].
  unfold bind at 1. unfold bind at 1. unfold getObject at 1. cbn [vheap].
  rewrite Hca. cbn [ret type].
  rewrite decide_True by congruence.
  unfold bind at 1. rewrite Hrun.
  cbn [replaceFirstChild].
  assert (Hp' : (d ++ build (length d) (Element tag attrs kids)) !! p = Some node).
  { rewrite lookup_app_l; [done | by eapply lookup_lt_Some]. }
  unfold bind at 1. erewrite run_firstChild by exact Hp'.
  by erewrite run_replaceChild_undefined.
Qed.

(** Same tag: resolving [updateAttributes] throws before anything is
    touched. *)
Lemma run_diff_same_tag (fuel : nat) pa ca po co p node (w : World) :
  vheap w !! pa = Some po →
  vheap w !! ca = Some co →
  type po = type co →
  nodes w !! p = Some node →
  diffAndUpdate (S fuel) (Some (VRef pa)) (Some (VRef ca)) (Some p) w
  = Throw ReferenceError w.
Proof.
  destruct w as [h d l]. cbn [vheap nodes]. intros Hpa Hca Hty Hp.
  cbn [diffAndUpdate isTextNode orb readType].
  unfold bind at 1. unfold bind at 1. unfold getObject at 1. cbn [vheap].
  rewrite Hpa. cbn [ret].
  unfold bind at 1. unfold bind at 1. unfold getObject at 1. cbn [vheap].
  rewrite Hca. cbn [ret].
  rewrite decide_False by (intros H; apply H; congruence).
  cbn [getDomElementFromVNode].
  unfold bind at 1. by erewrite run_firstChild.
Qed.

(** C3, at the failing input.  After [<div class="old">] has been
    mounted as the single child of [body], diffing it against a [<span>]
    throws a [TypeError]: the [<span>] is built but stays detached (live
    node 2), and [body] still holds the [<div>] (live node 1) with its
    attribute. *)
Theorem tag_change_throws :
  tagChangeRun emptyPage
  = Throw TypeError
      (mkWorld
         [ mkVObject "div" (Some {["class" := "old"]}) (ChildList []);
           mkVObject "span" (Some ∅) (ChildList []) ]
         [ mkLiveNode (ElementNode "body") ∅ [1];
           mkLiveNode (ElementNode "div") {["class" := "old"]} [];
           mkLiveNode (ElementNode "span") ∅ [] ]
         [ CreateElement "div"; SetAttribute 1 "class" "old"; AppendChild 0 1;
           CreateElement "span" ]).
Proof. vm_compute. reflexivity. Qed.

(** An instance: after [<div>a</div>] has been mounted as the single
    child of [body], diffing it against [<div>b</div>] (same tag, the
    child at index 0 differs) throws a [ReferenceError] before any child
    is visited: the live tree is what the mount left, text ["a"]
    included. *)
Lemma same_tag_throws :
  sameTagRun emptyPage
  = Throw ReferenceError
      (mkWorld
         [ mkVObject "div" (Some ∅) (ChildList [VText "a"]);
           mkVObject "div" (Some ∅) (ChildList [VText "b"]) ]
         [ mkLiveNode (ElementNode "body") ∅ [1];
           mkLiveNode (ElementNode "div") ∅ [2];
           mkLiveNode (TextNode "a") ∅ [] ]
         [ CreateElement "div"; CreateTextNode "a"; AppendChild 1 2; AppendChild 0 1 ]).
Proof. vm_compute. reflexivity. Qed.

(** C2, at the failing input.  The element carries [constructor="1"];
    the diff from [{constructor:"1"}] to [{}] makes no call at all,
    because ["constructor" in {}] holds by inheritance: the attribute is
    present in the old mapping, absent from the new one, and is not
    removed. *)
Theorem inherited_name_not_removed :
  inheritedNameRun emptyPage
  = Return tt
      (mkWorld
         [ mkVObject "div" (Some {["constructor" := "1"]}) (ChildList []) ]
         [ mkLiveNode (ElementNode "body") ∅ [1];
           mkLiveNode (ElementNode "div") {["constructor" := "1"]} [] ]
         [ CreateElement "div"; SetAttribute 1 "constructor" "1"; AppendChild 0 1 ]).
Proof. vm_compute. reflexivity. Qed.

(** The specification's example of the attribute diff, on an element
    that carries [{a:"1", b:"2"}]: from [{a:"1", b:"2"}] to
    [{b:"2", c:"3"}] the diff removes [a], does not write [b], sets [c],
    and the element ends with [{b:"2", c:"3"}]. *)
Lemma attribute_diff_example :
  updateDomAttributes 0 (Some {["a" := "1"; "b" := "2"]})
    (Some {["b" := "2"; "c" := "3"]}) attributePage
  = Return tt
      (mkWorld []
         [ mkLiveNode (ElementNode "div") {["b" := "2"; "c" := "3"]} [1];
           mkLiveNode (TextNode "hello") ∅ [] ]
         [ RemoveAttribute 0 "a"; SetAttribute 0 "c" "3" ]).
Proof. vm_compute. reflexivity. Qed.


(** C5. With two element objects of the same tag, diff-and-patch
    changes nothing, whatever the container: with a live container,
    resolving [updateAttributes] on line 66 throws a [ReferenceError]
    before the loop over the children, and with an absent container
    reading [firstChild] on line 65 throws a [TypeError]; no call is made
    on the display tree and the resulting state is the state before the
    call, so every live subtree, at an index whose child is identical or
    not, is as it was, and no live child, trailing ones included, is
    visited or removed.  The body of the loop itself (lines 70-74) makes
    no recursive call at an index where the child of the current node is
    the child the previous node has at that index, whatever the
    recursive call would do. *)
Theorem diff_same_tag_frame (fuel : nat) (pa ca : nat) (po co : VObject)
    (container : option nat) (w : World) :
  vheap w !! pa = Some po →
  vheap w !! ca = Some co →
  type po = type co →
  (∀ p, container = Some p → is_Some (nodes w !! p)) →
  diffAndUpdate (S fuel) (Some (VRef pa)) (Some (VRef ca)) container w
  = Throw (match container with Some _ => ReferenceError | None => TypeError end) w
  ∧ (∀ (diff : option VNode → option VNode → option nat → M unit)
       (domElement : option nat) (pcs : list VNode) (index : nat) (child : VNode),
       children po = ChildList pcs →
       pcs !! index = Some child →
       diffChild diff (Some (VRef pa)) domElement child index w = Return tt w).
Proof.
  intros Hpa Hca Hty Hlive. split.
  - destruct container as [p |].
    + destruct (Hlive p eq_refl) as [node Hp]. by eapply run_diff_same_tag.
    + destruct w as [h d l]. cbn [vheap] in Hpa, Hca.
      cbn [diffAndUpdate isTextNode orb readType].
      unfold bind at 1. unfold bind at 1. unfold getObject at 1. cbn [vheap].
      rewrite Hpa. cbn [ret].
      unfold bind at 1. unfold bind at 1. unfold getObject at 1. cbn [vheap].
      rewrite Hca. cbn [ret].
      rewrite decide_False by (intros H; apply H; congruence).
      reflexivity.
  - intros diff domElement pcs index child Hch Hidx.
    unfold diffChild, readChildren. unfold bind at 1. unfold bind at 1.
    unfold getObject. rewrite Hpa. cbn [ret]. rewrite Hch. cbn [childAt].
    unfold bind at 1. cbn [ret]. rewrite Hidx.
    unfold strictNeq. by rewrite bool_decide_true.
Qed.

(** ** The theorems at example pages *)

Lemma usagePage_vrep : vrep (vheap usagePage) (VRef 1) usageTree.
Proof.
  eapply vrep_element; [reflexivity |].
  repeat constructor.
  eapply vrep_element; [reflexivity |].
  repeat constructor.
Qed.

Lemma usageTree_height : height usageTree ≤ 3.
Proof. vm_compute. lia. Qed.

Lemma usageTree_plain : plainNames usageTree = true.
Proof. vm_compute. reflexivity. Qed.

Lemma busyPage_container :
  nodes busyPage !! 0
  = Some (mkLiveNode (ElementNode "body") {["lang" := "en"]} [1; 2]).
Proof. reflexivity. Qed.

Lemma busyPage_content : Forall2 (lrep (nodes busyPage)) [1; 2] busyContent.
Proof.
  repeat constructor. eapply lrep_element; [reflexivity |]. repeat constructor.
Qed.

Lemma usageTree_xml : xmlNames usageTree = true.
Proof. vm_compute. reflexivity. Qed.


Lemma mount_without_container_witness :
  ∃ w' t',
    renderVDomToDom 3 (VRef 1) None busyPage = Return tt w'
    ∧ nodes w' = nodes busyPage ++ build (length (nodes busyPage)) t'
    ∧ length (nodes w') = length (nodes busyPage) + size usageTree
    ∧ lrep (nodes w') (length (nodes busyPage)) t'
    ∧ (∀ id, id < length (nodes busyPage) → nodes w' !! id = nodes busyPage !! id)
    ∧ vheap w' = vheap busyPage
    ∧ (plainNames usageTree = true → t' = usageTree).
Proof.
  apply (mount_without_container usageTree 3 (VRef 1) busyPage).
  - exact usagePage_vrep.
  - exact usageTree_xml.
  - exact usageTree_height.
Defined.

Lemma reRender_idempotent_witness :
  ∃ w1 w2 ts,
    ((reRenderElement 5 (VRef 1) (Some 0) busyPage = Return tt w1
      ∧ reRenderElement 5 (VRef 1) (Some 0) w1 = Return tt w2)
     ∨ (reRenderElement 5 (VRef 1) (Some 0) busyPage = Throw InvalidCharacterError w1
        ∧ reRenderElement 5 (VRef 1) (Some 0) w1 = Throw InvalidCharacterError w2))
    ∧ content (nodes w1) 0 ts
    ∧ content (nodes w2) 0 ts
    ∧ (∀ ts', content (nodes w1) 0 ts' ↔ content (nodes w2) 0 ts')
    ∧ (plainNames usageTree = true →
       ts = [usageTree] ∧ reRenderElement 5 (VRef 1) (Some 0) busyPage = Return tt w1).
Proof.
  apply (reRender_idempotent usageTree 5 (VRef 1) 0 busyPage "body"
           {["lang" := "en"]} [1; 2]).
  - exact usagePage_vrep.
  - pose proof usageTree_height. lia.
  - simpl. lia.
  - lia.
  - exact busyPage_container.
Defined.


Lemma diff_text_values_witness :
  diffAndUpdate 1 (Some (VText "hello")) (Some (VText "world")) (Some 0)
    (mkWorld [] [mkLiveNode (ElementNode "body") ∅ [1];
                 mkLiveNode (TextNode "hello") ∅ []] [])
  = Return tt
      (mkWorld []
         [mkLiveNode (ElementNode "body") ∅ [2];
          mkLiveNode (TextNode "hello") ∅ [];
          mkLiveNode (TextNode "world") ∅ []]
         [CreateTextNode "world"; ReplaceChild 0 2 1]).
Proof.
  apply (diff_text_values 0 "hello" "world" 0
           (mkWorld [] [mkLiveNode (ElementNode "body") ∅ [1];
                        mkLiveNode (TextNode "hello") ∅ []] [])
           "body" ∅ 1 []).
  reflexivity.
Defined.

Lemma diff_same_tag_frame_witness :
  diffAndUpdate 3 (Some (VRef 1)) (Some (VRef 2)) (Some 0) sharedChildPage
  = Throw ReferenceError sharedChildPage
  ∧ (∀ (diff : option VNode → option VNode → option nat → M unit)
       (domElement : option nat) (pcs : list VNode) (index : nat) (child : VNode),
       ChildList [VRef 0; VText "a"; VText "tail"] = ChildList pcs →
       pcs !! index = Some child →
       diffChild diff (Some (VRef 1)) domElement child index sharedChildPage
       = Return tt sharedChildPage).
Proof.
  apply (diff_same_tag_frame 2 1 2
           (mkVObject "div" (Some ∅) (ChildList [VRef 0; VText "a"; VText "tail"]))
           (mkVObject "div" (Some ∅) (ChildList [VRef 0; VText "b"]))
           (Some 0) sharedChildPage); try reflexivity.
  intros p [= <-]. by eexists.
Defined.

(** * Further properties of the module *)

(** ** Mount and the content of the container *)

Lemma size_pos t : 1 ≤ size t.
Proof. destruct t; simpl; lia. Qed.

Lemma size_le_sum (t : Tree) ts : t ∈ ts → size t ≤ sum_list (map size ts).
Proof.
  induction 1 as [t ts | t t' ts _ IH]; simpl; lia.
Qed.

(** A write to the container's own node does not change the shape of
    any subtree below it: a subtree no larger than the container's
    content cannot contain the container. *)
Lemma lrep_outside_container d d' c n ts :
  d !! c = Some n →
  Forall2 (lrep d) (childNodes n) ts →
  (∀ id, id < length d → id ≠ c → d' !! id = d !! id) →
  ∀ t id, size t ≤ sum_list (map size ts) → lrep d id t → lrep d' id t.
Proof.
  intros Hc Hts Hsame t.
  induction t as [s | tag attrs kids IH] using Tree_ind'; intros id Hsz Hl.
  - inversion Hl as [? ? Hid |]; subst.
    assert (Hne : id ≠ c).
    { intros ->. rewrite Hc in Hid. injection Hid as ->. simpl in Hts.
      inversion Hts; subst. simpl in Hsz. lia. }
    constructor. rewrite Hsame; [done | by eapply lookup_lt_Some | done].
  - inversion Hl as [| ? ? ? ks ? Hid Hks]; subst.
    assert (Hne : id ≠ c).
    { intros ->. rewrite Hc in Hid. injection Hid as ->. simpl in Hts.
      assert (kids = ts) as ->.
      { eapply (content_functional d c); eexists; (split; [exact Hc |]); done. }
      simpl in Hsz. lia. }
    econstructor; [rewrite Hsame; [exact Hid | by eapply lookup_lt_Some | done] |].
    assert (Hbound : sum_list (map size kids) ≤ sum_list (map size ts))
      by (simpl in Hsz; lia).
    clear Hl Hid Hsz. induction Hks as [| k t ks kids Hk Hks IHks]; [constructor |].
    inversion IH as [| ? ? IHt IHkids]; subst. simpl in Hbound.
    constructor; [apply IHt; [lia | done] | apply IHks; [done | lia]].
Qed.

Lemma children_after_mount (t : Tree) d c tag a ks ts :
  d !! c = Some (mkLiveNode (ElementNode tag) a ks) →
  Forall2 (lrep d) ks ts →
  Forall2
    (lrep (<[c := mkLiveNode (ElementNode tag) a (ks ++ [length d])]> d
           ++ build (length d) t))
    (ks ++ [length d]) (ts ++ [t]).
Proof.
  intros Hc Hts. pose proof (lookup_lt_Some _ _ _ Hc) as Hlt.
  apply Forall2_app.
  - assert (Hframe : ∀ t0 id, size t0 ≤ sum_list (map size ts) → lrep d id t0 →
              lrep (<[c := mkLiveNode (ElementNode tag) a (ks ++ [length d])]> d
                    ++ build (length d) t) id t0).
    { eapply (lrep_outside_container d _ c _ ts Hc Hts).
      intros id Hid Hne. rewrite lookup_app_l by (by rewrite length_insert).
      by apply list_lookup_insert_ne. }
    assert (Hall : Forall (λ t0, size t0 ≤ sum_list (map size ts)) ts).
    { apply Forall_forall. intros t0. apply size_le_sum. }
    remember (sum_list (map size ts)) as bound eqn:Hbound.
    remember (<[c := mkLiveNode (ElementNode tag) a (ks ++ [length d])]> d
              ++ build (length d) t) as d' eqn:Hd'.
    clear Hc Hbound Hd'.
    induction Hts as [| k t0 ks ts Hk Hts IH]; [constructor |].
    inversion Hall; subst. constructor; [by apply Hframe | by apply IH].
  - constructor; [| constructor].
    pose proof (lrep_build t
                  (<[c := mkLiveNode (ElementNode tag) a (ks ++ [length d])]> d) [])
      as H.
    rewrite length_insert, app_nil_r in H. exact H.
Qed.

(** X1. Mounting a virtual tree [t] of the data model whose names are
    all valid names in lower case into an element container whose
    children have the shapes [ts] returns normally and leaves the
    container with the shapes [ts] followed by [t]: the subtrees that
    were there keep their shape and their order, and the new one comes
    last. *)
Theorem mount_extends_content (t : Tree) (fuel : nat) (v : VNode) (c : nat) (w : World)
    (tag : string) (a : gmap string string) (ks : list nat) (ts : list Tree) :
  vrep (vheap w) v t →
  plainNames t = true →
  height t ≤ fuel →
  nodes w !! c = Some (mkLiveNode (ElementNode tag) a ks) →
  Forall2 (lrep (nodes w)) ks ts →
  ∃ w',
    renderVDomToDom fuel v (Some c) w = Return tt w'
    ∧ content (nodes w') c (ts ++ [t]).
Proof.
  destruct w as [h d l]. cbn [vheap nodes]. intros Hv Hplain Hfuel Hc Hts.
  pose proof (lookup_lt_Some _ _ _ Hc) as Hlt.
  destruct (run_mount_into t t fuel v c h d l tag a ks Hv Hfuel
              (liveShape_plain t Hplain) Hc) as (cs & _ & ->).
  eexists. split; [reflexivity |]. cbn [nodes].
  eexists. split.
  - rewrite lookup_app_l by (by rewrite length_insert).
    by apply list_lookup_insert_eq.
  - cbn [childNodes]. by apply children_after_mount.
Qed.

(** X2. Mount does not clear the container: mounting [t1] and then [t2]
    (virtual trees of the data model whose names are all valid names in
    lower case) into the same element container leaves it with its
    earlier content followed by [t1] and then [t2]. *)
Theorem mount_accumulates (t1 t2 : Tree) (fuel : nat) (v1 v2 : VNode) (c : nat)
    (w : World) (tag : string) (a : gmap string string) (ks : list nat)
    (ts : list Tree) :
  vrep (vheap w) v1 t1 → vrep (vheap w) v2 t2 →
  plainNames t1 = true → plainNames t2 = true →
  height t1 ≤ fuel → height t2 ≤ fuel →
  nodes w !! c = Some (mkLiveNode (ElementNode tag) a ks) →
  Forall2 (lrep (nodes w)) ks ts →
  ∃ w1 w2,
    renderVDomToDom fuel v1 (Some c) w = Return tt w1
    ∧ renderVDomToDom fuel v2 (Some c) w1 = Return tt w2
    ∧ content (nodes w2) c (ts ++ [t1; t2]).
Proof.
  destruct w as [h d l]. cbn [vheap nodes]. intros Hv1 Hv2 Hp1 Hp2 Hf1 Hf2 Hc Hts.
  pose proof (lookup_lt_Some _ _ _ Hc) as Hlt.
  destruct (run_mount_into t1 t1 fuel v1 c h d l tag a ks Hv1 Hf1
              (liveShape_plain t1 Hp1) Hc) as (cs1 & _ & ->).
  set (d1 := <[c := mkLiveNode (ElementNode tag) a (ks ++ [length d])]> d
             ++ build (length d) t1).
  assert (Hc1 : d1 !! c = Some (mkLiveNode (ElementNode tag) a (ks ++ [length d]))).
  { unfold d1. rewrite lookup_app_l by (by rewrite length_insert).
    by apply list_lookup_insert_eq. }
  assert (Hts1 : Forall2 (lrep d1) (ks ++ [length d]) (ts ++ [t1]))
    by (by apply children_after_mount).
  destruct (run_mount_into t2 t2 fuel v2 c h d1 (l ++ cs1) tag a _ Hv2 Hf2
              (liveShape_plain t2 Hp2) Hc1) as (cs2 & _ & Hrun2).
  eexists. eexists. split; [reflexivity |]. split; [exact Hrun2 |]. cbn [nodes].
  pose proof (lookup_lt_Some _ _ _ Hc1) as Hlt1.
  eexists. split.
  - rewrite lookup_app_l by (by rewrite length_insert).
    by apply list_lookup_insert_eq.
  - cbn [childNodes].
    replace (ts ++ [t1; t2]) with ((ts ++ [t1]) ++ [t2]) by (by rewrite <- app_assoc).
    by apply children_after_mount.
Qed.

(** ** Mount on nodes outside the data model *)

Lemma run_mount_absent_props (fuel : nat) a ty ch container h d l :
  h !! a = Some (mkVObject ty None ch) →
  htmlName ty = true →
  renderVDomToDom (S fuel) (VRef a) container (mkWorld h d l)
  = Throw TypeError
      (mkWorld h (d ++ [mkLiveNode (ElementNode ty) ∅ []]) (l ++ [CreateElement ty])).
Proof.
  intros Ha Hty. destruct (htmlName_spec ty Hty) as (Hvalid & _ & Hlow).
  cbn [renderVDomToDom isTextNode readType readProps].
  unfold bind at 1. unfold bind at 1. unfold bind at 1.
  unfold getObject at 1. cbn [vheap]. rewrite Ha. cbn [ret type tagString].
  unfold bind at 1. rewrite (run_createElement _ _ _ _ Hvalid), Hlow.
  unfold bind at 1. unfold bind at 1. unfold getObject at 1.
  cbn [vheap]. rewrite Ha. cbn [ret props].
  unfold bind at 1. unfold updateDomAttributes, Object_keys, Object_entries.
  unfold bind at 1. unfold bind at 1. cbn [toObject ret].
  rewrite map_to_list_empty. cbn [map forEach].
  unfold bind at 1. cbn [ret]. unfold bind at 1. unfold bind at 1. reflexivity.
Qed.

Lemma run_mount_string_children (fuel : nat) a ty attrs s container h d l :
  h !! a = Some (mkVObject ty (Some attrs) (ChildText s)) →
  htmlName ty = true →
  plainKeys attrs = true →
  ∃ cs,
    renderVDomToDom (S fuel) (VRef a) container (mkWorld h d l)
    = Throw TypeError
        (mkWorld h (d ++ [mkLiveNode (ElementNode ty) attrs []]) (l ++ cs)).
Proof.
  intros Ha Hty Hkeys. destruct (htmlName_spec ty Hty) as (Hvalid & _ & Hlow).
  pose proof (run_updateDomAttributes_fresh h
                (d ++ [mkLiveNode (ElementNode ty) ∅ []]) (l ++ [CreateElement ty])
                (length d) ty [] attrs (lookup_middle _ _ _)) as Hattrs.
  rewrite writeLowered_plain in Hattrs by (by unfold plainKeys in Hkeys).
  rewrite writeAll_map_to_list in Hattrs. destruct Hattrs as (cs & _ & Hattrs).
  rewrite insert_middle in Hattrs.
  exists ([CreateElement ty] ++ cs).
  cbn [renderVDomToDom isTextNode readType readProps readChildren].
  unfold bind at 1. unfold bind at 1. unfold bind at 1.
  unfold getObject at 1. cbn [vheap]. rewrite Ha. cbn [ret type tagString].
  unfold bind at 1. rewrite (run_createElement _ _ _ _ Hvalid), Hlow.
  unfold bind at 1. unfold bind at 1. unfold getObject at 1.
  cbn [vheap]. rewrite Ha. cbn [ret props].
  unfold bind at 1. rewrite Hattrs.
  unfold bind at 1. unfold bind at 1. unfold getObject at 1.
  cbn [vheap]. rewrite Ha. cbn [ret children childrenArray].
  unfold bind at 1. by rewrite app_assoc.
Qed.

(** X3. Mounting an object whose tag is a valid name in lower case and
    whose [props] is absent, or whose attribute names are valid names in
    lower case and whose [children] is a string rather than an array,
    throws a [TypeError], whatever the container. *)
Theorem mount_malformed_root_throws (fuel : nat) (a : nat) (o : VObject)
    (container : option nat) (w : World) :
  vheap w !! a = Some o →
  htmlName (type o) = true →
  props o = None
  ∨ (∃ attrs s, props o = Some attrs ∧ plainKeys attrs = true
                ∧ children o = ChildText s) →
  ∃ w', renderVDomToDom (S fuel) (VRef a) container w = Throw TypeError w'.
Proof.
  destruct w as [h d l], o as [ty pr ch]; cbn [vheap type props children].
  intros Ha Hty [-> | (attrs & s & -> & Hkeys & ->)].
  - erewrite run_mount_absent_props by done. by eexists.
  - destruct (run_mount_string_children fuel a ty attrs s container h d l Ha Hty Hkeys)
      as (cs & ->).
    by eexists.
Qed.

Lemma appendChild_throw_same p child w e w' :
  appendChild p child w = Throw e w' → w' = w.
Proof.
  unfold appendChild, bind, getNode. destruct (nodes w !! p) as [n |]; [| done].
  destruct (nodeKind n); unfold throw, logCall, putNode; by intros [= _ ->].
Qed.

(** X4. Mount is all or nothing for the nodes that exist: whenever
    [renderVDomToDom] throws, whatever its arguments, no virtual object
    and no live node that existed before the call has changed (the
    container included); only new, detached nodes may have been
    created. *)
Theorem mount_throw_keeps_existing (fuel : nat) (v : VNode) (container : option nat)
    (w : World) (e : JsError) (w' : World) :
  renderVDomToDom fuel v container w = Throw e w' →
  vheap w' = vheap w
  ∧ ∀ id, id < length (nodes w) → nodes w' !! id = nodes w !! id.
Proof.
  intros Hrun.
  assert (HF : framed (length (nodes w)) None (λ _, True)
                 (renderVDomToDom fuel v None))
    by (apply framed_renderVDomToDom; intros p [=]).
  specialize (HF w (le_n _)).
  destruct fuel as [| fuel]; [done |].
  cbn [renderVDomToDom] in Hrun, HF. unfold bind in Hrun, HF.
  match type of Hrun with
  | match ?x with _ => _ end = _ => destruct x as [e1 w1 | e1 w1 |] eqn:Hin
  end; [| | done].
  - destruct HF as [_ (Hv & _ & Hn & _)].
    destruct container as [c |]; [| done].
    apply appendChild_throw_same in Hrun as ->.
    split; [done |]. intros id Hid. by apply Hn.
  - injection Hrun as <- <-. destruct HF as (Hv & _ & Hn & _).
    split; [done |]. intros id Hid. by apply Hn.
Qed.

(** X5. Re-render is not all or nothing: with an object whose tag is a
    valid name in lower case and whose [props] is absent,
    [reRenderElement] first removes every child of the element container
    and then throws a [TypeError], so the container is left empty (and
    one detached element has been created). *)
Theorem reRender_bad_tree_empties_container (fuel : nat) (a : nat) (ty : string)
    (ch : JsChildren) (p : nat) (w : World) (tag : string)
    (at' : gmap string string) (ks : list nat) :
  vheap w !! a = Some (mkVObject ty None ch) →
  htmlName ty = true →
  nodes w !! p = Some (mkLiveNode (ElementNode tag) at' ks) →
  length ks < fuel →
  reRenderElement fuel (VRef a) (Some p) w
  = Throw TypeError
      (mkWorld (vheap w)
         (<[p := mkLiveNode (ElementNode tag) at' []]> (nodes w)
          ++ [mkLiveNode (ElementNode ty) ∅ []])
         ((calls w ++ map (RemoveChild p) ks) ++ [CreateElement ty])).
Proof.
  destruct w as [h d l]. cbn [vheap nodes calls]. intros Ha Hty Hp Hks.
  unfold reRenderElement, bind.
  rewrite (run_removeAllChildren h p tag at' ks fuel d l Hks Hp).
  destruct fuel as [| fuel]; [lia |].
  by erewrite run_mount_absent_props by done.
Qed.

(** ** The attribute diff on arbitrary mappings *)

Lemma lookup_writeAll_written (a old new : gmap string string) k :
  writeAll a (writtenEntries old new) !! k
  = match new !! k with
    | Some v => if decide (old !! k = Some v) then a !! k else Some v
    | None => a !! k
    end.
Proof.
  rewrite writeAll_union by apply NoDup_fst_writtenEntries.
  destruct ((list_to_map (writtenEntries old new) : gmap string string) !! k)
    as [v |] eqn:Hw.
  - erewrite lookup_union_Some_l by exact Hw.
    apply elem_of_list_to_map in Hw; [| apply NoDup_fst_writtenEntries].
    apply elem_of_writtenEntries in Hw as [-> Hne]. by rewrite decide_False.
  - rewrite lookup_union_r by exact Hw.
    apply not_elem_of_list_to_map in Hw.
    destruct (new !! k) as [v |] eqn:Hnew; [| done].
    destruct (decide (old !! k = Some v)) as [? | Hne]; [done |].
    exfalso. apply Hw. apply list_elem_of_fmap. exists (k, v).
    split; [done |]. by apply elem_of_writtenEntries.
Qed.

(** X6. The attribute diff on an element, for any old and new mapping
    whose names are valid names in lower case and whatever attributes
    the element carries: it returns normally; it makes only
    [removeAttribute] and [setAttribute] calls on that element; it
    removes exactly the names of the old mapping that are absent from
    the new one and are not inherited property names; it writes exactly
    the pairs of the new mapping that the old one does not hold; and
    every other attribute of the element is left as it was. *)
Theorem attribute_diff_general (e : nat) (old new a : gmap string string) (w : World)
    (tag : string) (ks : list nat) :
  plainKeys old = true →
  plainKeys new = true →
  nodes w !! e = Some (mkLiveNode (ElementNode tag) a ks) →
  ∃ w' cs a',
    updateDomAttributes e (Some old) (Some new) w = Return tt w'
    ∧ nodes w' = <[e := mkLiveNode (ElementNode tag) a' ks]> (nodes w)
    ∧ calls w' = calls w ++ cs
    ∧ (∀ call, call ∈ cs →
         (∃ name, call = RemoveAttribute e name)
         ∨ (∃ name value, call = SetAttribute e name value))
    ∧ (∀ name, RemoveAttribute e name ∈ cs
               ↔ is_Some (old !! name) ∧ new !! name = None
                 ∧ name ∉ Object_prototype_names)
    ∧ (∀ name value, SetAttribute e name value ∈ cs
                     ↔ new !! name = Some value ∧ old !! name ≠ Some value)
    ∧ (∀ name,
         a' !! name
         = match new !! name with
           | Some value => if decide (old !! name = Some value) then a !! name
                           else Some value
           | None => if decide (is_Some (old !! name)
                                ∧ name ∉ Object_prototype_names)
                     then None else a !! name
           end).
Proof.
  destruct w as [h d l]. cbn [nodes calls]. intros Hpo Hpn He.
  rewrite (run_updateDomAttributes h d l e tag ks a old new Hpo Hpn He).
  eexists. eexists. eexists. split; [reflexivity |]. cbn [nodes calls].
  split; [reflexivity |]. split; [by rewrite <- app_assoc |].
  split; [| split; [| split]].
  - intros call [Hc | Hc]%elem_of_app; apply list_elem_of_fmap in Hc as (x & -> & _);
      [left | right]; eauto.
  - intros name. rewrite elem_of_app, !list_elem_of_fmap. split.
    + intros [(x & [= ->] & Hx) | (x & [=] & _)].
      by apply elem_of_removedNames in Hx.
    + intros Hx. left. exists name. split; [done |].
      by apply elem_of_removedNames.
  - intros name value. rewrite elem_of_app, !list_elem_of_fmap. split.
    + intros [(x & [=] & _) | ([k v] & [= -> ->] & Hx)].
      by apply elem_of_writtenEntries in Hx.
    + intros Hx. right. exists (name, value). split; [done |].
      by apply elem_of_writtenEntries.
  - intros name. rewrite lookup_writeAll_written, lookup_deleteAll.
    destruct (new !! name) as [v |] eqn:Hnew.
    + rewrite (decide_False (P := name ∈ removedNames old new)); [done |].
      rewrite elem_of_removedNames. intros (_ & ? & _). congruence.
    + destruct (decide (is_Some (old !! name) ∧ name ∉ Object_prototype_names))
        as [[Hold Hp] | Hno].
      * rewrite (decide_True (P := name ∈ removedNames old new)); [done |].
        by apply elem_of_removedNames.
      * rewrite (decide_False (P := name ∈ removedNames old new)); [done |].
        rewrite elem_of_removedNames. tauto.
Qed.

(** X7. The attribute diff when every name of the two mappings is a
    valid name in lower case and no removed name is an inherited
    property name: the element that carried [old] ends with exactly
    [new]; the names removed are exactly those of [old] absent from
    [new]; the pairs written are exactly those of [new] that [old] does
    not hold; nothing else is written. *)
Theorem attribute_diff_plain_names (e : nat) (old new : gmap string string) (w : World)
    (tag : string) (ks : list nat) :
  plainKeys old = true →
  plainKeys new = true →
  nodes w !! e = Some (mkLiveNode (ElementNode tag) old ks) →
  (∀ name, is_Some (old !! name) → new !! name = None →
           name ∉ Object_prototype_names) →
  ∃ w' cs,
    updateDomAttributes e (Some old) (Some new) w = Return tt w'
    ∧ nodes w' = <[e := mkLiveNode (ElementNode tag) new ks]> (nodes w)
    ∧ calls w' = calls w ++ cs
    ∧ (∀ call, call ∈ cs →
         (∃ name, call = RemoveAttribute e name)
         ∨ (∃ name value, call = SetAttribute e name value))
    ∧ (∀ name, RemoveAttribute e name ∈ cs
               ↔ is_Some (old !! name) ∧ new !! name = None)
    ∧ (∀ name value, SetAttribute e name value ∈ cs
                     ↔ new !! name = Some value ∧ old !! name ≠ Some value).
Proof.
  destruct w as [h d l]. cbn [nodes calls]. intros Hpo Hpn He Hplain.
  rewrite (run_updateDomAttributes h d l e tag ks old old new Hpo Hpn He).
  eexists. eexists. split; [reflexivity |]. cbn [nodes calls].
  split; [by rewrite attributes_after_diff |].
  split; [by rewrite <- app_assoc |].
  split; [| split].
  - intros call [Hc | Hc]%elem_of_app; apply list_elem_of_fmap in Hc as (x & -> & _);
      [left | right]; eauto.
  - intros name. rewrite elem_of_app, !list_elem_of_fmap. split.
    + intros [(x & [= ->] & Hx) | (x & [=] & _)].
      apply elem_of_removedNames in Hx. tauto.
    + intros (Hold & Hnew). left. exists name. split; [done |].
      apply elem_of_removedNames. auto.
  - intros name value. rewrite elem_of_app, !list_elem_of_fmap. split.
    + intros [(x & [=] & _) | ([k v] & [= -> ->] & Hx)].
      by apply elem_of_writtenEntries in Hx.
    + intros Hx. right. exists (name, value). split; [done |].
      by apply elem_of_writtenEntries.
Qed.

(** X8. Diffing a mapping against itself does nothing: for an element
    and any mapping [m], [updateDomAttributes(e, m, m)] returns without
    making a single display-tree call and leaves the world as it was. *)
Theorem attribute_diff_self_noop (e : nat) (m : gmap string string) (w : World)
    (tag : string) (a : gmap string string) (ks : list nat) :
  nodes w !! e = Some (mkLiveNode (ElementNode tag) a ks) →
  updateDomAttributes e (Some m) (Some m) w = Return tt w.
Proof.
  intros _. unfold updateDomAttributes, Object_keys, Object_entries.
  unfold bind at 1. unfold bind at 1. cbn [toObject ret]. unfold bind at 1.
  pose proof (run_removeLoop_none e m w (map fst (map_to_list m))) as H1.
  cbn [toObject] in H1. rewrite H1; last first.
  { apply Forall_forall. intros k Hk.
    change (map fst (map_to_list m)) with ((map_to_list m).*1) in Hk.
    apply list_elem_of_fmap in Hk as ([k' v] & -> & Hin).
    apply elem_of_map_to_list in Hin. unfold inOp. cbn [fst].
    rewrite bool_decide_true; [done | by eexists]. }
  unfold bind at 1. unfold bind at 1. cbn [toObject ret].
  pose proof (run_writeLoop_none e m w (map_to_list m)) as H2.
  cbn [toObject] in H2. apply H2.
  apply Forall_forall. intros [k v] Hin. apply elem_of_map_to_list in Hin.
  cbn [fst snd]. unfold getProp. by rewrite Hin.
Qed.

(** X9. With an absent ([undefined]) old or new mapping the attribute
    diff throws a [TypeError] before making any display-tree call: the
    world is unchanged. *)
Theorem attribute_diff_undefined_throws (e : nat) (oldProps newProps : JsProps)
    (w : World) :
  oldProps = None ∨ newProps = None →
  updateDomAttributes e oldProps newProps w = Throw TypeError w.
Proof.
  intros Hundef. unfold updateDomAttributes, Object_keys, Object_entries.
  destruct oldProps as [old |]; [| reflexivity].
  destruct Hundef as [? | ->]; [done |].
  unfold bind at 1. unfold bind at 1. cbn [toObject ret].
  destruct (map fst (map_to_list old)) as [| k keys]; reflexivity.
Qed.

(** X10. Round trip of the attribute diff: when the element carries
    [old], every name of the two mappings is a valid name in lower case
    and no name that either diff has to remove is an inherited
    property name, diffing from [old] to [new] and then from [new] back
    to [old] leaves every live node exactly as it was at the start. *)
Theorem attribute_diff_round_trip (e : nat) (old new : gmap string string) (w : World)
    (tag : string) (ks : list nat) :
  plainKeys old = true →
  plainKeys new = true →
  nodes w !! e = Some (mkLiveNode (ElementNode tag) old ks) →
  (∀ name, is_Some (old !! name) → new !! name = None →
           name ∉ Object_prototype_names) →
  (∀ name, is_Some (new !! name) → old !! name = None →
           name ∉ Object_prototype_names) →
  ∃ w1 w2,
    updateDomAttributes e (Some old) (Some new) w = Return tt w1
    ∧ updateDomAttributes e (Some new) (Some old) w1 = Return tt w2
    ∧ nodes w1 !! e = Some (mkLiveNode (ElementNode tag) new ks)
    ∧ nodes w2 = nodes w.
Proof.
  destruct w as [h d l]. cbn [nodes]. intros Hpo Hpn He Hon Hno.
  pose proof (lookup_lt_Some _ _ _ He) as Hlt.
  rewrite (run_updateDomAttributes h d l e tag ks old old new Hpo Hpn He).
  rewrite (attributes_after_diff old new Hon).
  eexists. eexists. split; [reflexivity |].
  assert (He1 : <[e := mkLiveNode (ElementNode tag) new ks]> d !! e
                = Some (mkLiveNode (ElementNode tag) new ks))
    by (by apply list_lookup_insert_eq).
  rewrite (run_updateDomAttributes h _ _ e tag ks new new old Hpn Hpo He1).
  rewrite (attributes_after_diff new old Hno).
  split; [reflexivity |]. cbn [nodes]. split; [done |].
  by rewrite list_insert_insert_eq, list_insert_id.
Qed.

(** ** Diff-and-patch: the text case on arbitrary nodes *)

Lemma Forall2_lrep_frame d d' c n ts :
  d !! c = Some n →
  Forall2 (lrep d) (childNodes n) ts →
  (∀ id, id < length d → id ≠ c → d' !! id = d !! id) →
  ∀ ks' ts',
    Forall2 (lrep d) ks' ts' →
    Forall (λ t, size t ≤ sum_list (map size ts)) ts' →
    Forall2 (lrep d') ks' ts'.
Proof.
  intros Hc Hts Hsame ks' ts' Hks'.
  induction Hks' as [| k t ks' ts' Hk _ IH]; intros Hall; [constructor |].
  inversion Hall; subst. constructor; [| by apply IH].
  by eapply (lrep_outside_container d d' c n ts).
Qed.

Lemma run_diff_text_case (fuel : nat) prev cur c h d l tag a k rest :
  isTextNode prev || isTextNode (Some cur) = true →
  prev ≠ Some cur →
  d !! c = Some (mkLiveNode (ElementNode tag) a (k :: rest)) →
  diffAndUpdate (S fuel) prev (Some cur) (Some c) (mkWorld h d l)
  = Return tt
      (mkWorld h
         (<[c := mkLiveNode (ElementNode tag) a (length d :: rest)]> d
          ++ [mkLiveNode (TextNode (toString cur)) ∅ []])
         (l ++ [CreateTextNode (toString cur); ReplaceChild c (length d) k])).
Proof.
  intros Htext Hne Hc. pose proof (lookup_lt_Some _ _ _ Hc) as Hlt.
  cbn [diffAndUpdate]. rewrite Htext. unfold strictNeq.
  rewrite bool_decide_eq_false_2 by done. cbn [negb].
  unfold bind at 1. rewrite run_createTextNode. cbn [replaceFirstChild].
  assert (Hc' : (d ++ [mkLiveNode (TextNode (toString cur)) ∅ []]) !! c
                = Some (mkLiveNode (ElementNode tag) a (k :: rest)))
    by (by rewrite lookup_app_l).
  unfold bind at 1. erewrite run_firstChild by exact Hc'. cbn [childNodes head].
  erewrite run_replaceChild by exact Hc'.
  by rewrite insert_app_l, <- app_assoc.
Qed.

Lemma content_after_text_replace d c tag a k rest t0 ts s :
  d !! c = Some (mkLiveNode (ElementNode tag) a (k :: rest)) →
  Forall2 (lrep d) (k :: rest) (t0 :: ts) →
  content (<[c := mkLiveNode (ElementNode tag) a (length d :: rest)]> d
           ++ [mkLiveNode (TextNode s) ∅ []]) c (Text s :: ts).
Proof.
  intros Hc Hts. pose proof (lookup_lt_Some _ _ _ Hc) as Hlt.
  eexists. split.
  { rewrite lookup_app_l by (by rewrite length_insert).
    by apply list_lookup_insert_eq. }
  cbn [childNodes]. constructor.
  - constructor.
    pose proof (lookup_middle
                  (<[c := mkLiveNode (ElementNode tag) a (length d :: rest)]> d)
                  (mkLiveNode (TextNode s) ∅ []) []) as H.
    by rewrite length_insert in H.
  - inversion Hts as [| ? ? ? ? Hk Hrest]; subst.
    eapply (Forall2_lrep_frame d _ c _ (t0 :: ts) Hc Hts); [| exact Hrest |].
    + intros id Hid Hne. rewrite lookup_app_l by (by rewrite length_insert).
      by apply list_lookup_insert_ne.
    + apply Forall_forall. intros t Ht. apply size_le_sum. by right.
Qed.

(** X11. The text case of diff-and-patch in general: when the previous
    or the current node is a text value and the two are not the same
    value, the first child of the element container is replaced by a
    new text node carrying the current node converted to a string, and
    the container's other children keep their shape and order.  This
    holds whatever the previous node is: absent, an element, or another
    text. *)
Theorem diff_text_case_replaces (fuel : nat) (prev : option VNode) (cur : VNode)
    (c : nat) (w : World) (tag : string) (a : gmap string string) (k : nat)
    (rest : list nat) (t0 : Tree) (ts : list Tree) :
  isTextNode prev || isTextNode (Some cur) = true →
  prev ≠ Some cur →
  nodes w !! c = Some (mkLiveNode (ElementNode tag) a (k :: rest)) →
  Forall2 (lrep (nodes w)) (k :: rest) (t0 :: ts) →
  ∃ w',
    diffAndUpdate (S fuel) prev (Some cur) (Some c) w = Return tt w'
    ∧ content (nodes w') c (Text (toString cur) :: ts)
    ∧ nodes w' !! k = nodes w !! k.
Proof.
  destruct w as [h d l]. cbn [nodes]. intros Htext Hne Hc Hts.
  rewrite (run_diff_text_case fuel prev cur c h d l tag a k rest Htext Hne Hc).
  eexists. split; [reflexivity |]. cbn [nodes].
  split; [by eapply content_after_text_replace |].
  assert (Hk : k < length d).
  { inversion Hts as [| ? ? ? ? Hlk _]; subst.
    inversion Hlk; subst; by eapply lookup_lt_Some. }
  assert (Hkc : c ≠ k).
  { intros <-. inversion Hts as [| ? ? ? ? Hlk Hrest]; subst.
    assert (Hcont : content d c (t0 :: ts)) by (eexists; split; [exact Hc | done]).
    inversion Hlk as [? ? Hd | ? tag' attrs' ks' kids Hd Hks]; subst.
    - rewrite Hc in Hd. discriminate.
    - rewrite Hc in Hd. injection Hd as <- <- <-.
      assert (Hcont' : content d c kids) by (eexists; split; [exact Hc | done]).
      pose proof (content_functional _ _ _ _ Hcont Hcont') as Heq.
      apply (f_equal (λ l, sum_list (map size l))) in Heq. simpl in Heq. lia. }
  rewrite lookup_app_l by (by rewrite length_insert).
  by apply list_lookup_insert_ne.
Qed.

(** X12. Diffing a previous text value against a current element
    object never renders the element: the first child of the container
    is replaced by a text node whose text is the string conversion of
    the object, ["[object Object]"]. *)
Theorem diff_text_to_element_renders_text (fuel : nat) (s : string) (ca : nat)
    (c : nat) (w : World) (tag : string) (a : gmap string string) (k : nat)
    (rest : list nat) (t0 : Tree) (ts : list Tree) :
  nodes w !! c = Some (mkLiveNode (ElementNode tag) a (k :: rest)) →
  Forall2 (lrep (nodes w)) (k :: rest) (t0 :: ts) →
  ∃ w',
    diffAndUpdate (S fuel) (Some (VText s)) (Some (VRef ca)) (Some c) w = Return tt w'
    ∧ content (nodes w') c (Text "[object Object]" :: ts).
Proof.
  destruct w as [h d l]. cbn [nodes]. intros Hc Hts.
  rewrite (run_diff_text_case fuel (Some (VText s)) (VRef ca) c h d l tag a k rest);
    [| done | done | done].
  eexists. split; [reflexivity |]. cbn [nodes toString].
  by eapply content_after_text_replace.
Qed.

(** X13. The text case on an element container without children: the
    new text node is created, but there is no first child to replace,
    so [replaceChild] throws a [TypeError]; the container stays empty
    and the new node stays detached. *)
Theorem diff_text_empty_container_throws (fuel : nat) (prev : option VNode)
    (cur : VNode) (c : nat) (w : World) (tag : string) (a : gmap string string) :
  isTextNode prev || isTextNode (Some cur) = true →
  prev ≠ Some cur →
  nodes w !! c = Some (mkLiveNode (ElementNode tag) a []) →
  diffAndUpdate (S fuel) prev (Some cur) (Some c) w
  = Throw TypeError
      (mkWorld (vheap w)
         (nodes w ++ [mkLiveNode (TextNode (toString cur)) ∅ []])
         (calls w ++ [CreateTextNode (toString cur)])).
Proof.
  destruct w as [h d l]. cbn [vheap nodes calls]. intros Htext Hne Hc.
  pose proof (lookup_lt_Some _ _ _ Hc) as Hlt.
  cbn [diffAndUpdate]. rewrite Htext. unfold strictNeq.
  rewrite bool_decide_eq_false_2 by done. cbn [negb].
  unfold bind at 1. rewrite run_createTextNode. cbn [replaceFirstChild].
  assert (Hc' : (d ++ [mkLiveNode (TextNode (toString cur)) ∅ []]) !! c
                = Some (mkLiveNode (ElementNode tag) a []))
    by (by rewrite lookup_app_l).
  unfold bind at 1. erewrite run_firstChild by exact Hc'. cbn [childNodes head].
  unfold replaceChild, bind, getNode. cbn [nodes]. by rewrite Hc'.
Qed.

(** ** Diff-and-patch: two element objects *)

(** X14. How diff-and-patch ends on two element objects and a live
    container, when the current object is the root of a virtual tree of
    the data model whose names are all valid names in lower case.  With
    equal tags it throws a [ReferenceError] (the undefined
    [updateAttributes]) and changes nothing.  With different tags it
    throws a [TypeError] (the [replaceChild] of an undefined node): the
    subtree of the current object has been built, detached, by
    node-creating calls only, and every live node that existed before is
    unchanged, so the container keeps the children it had. *)
Theorem diff_elements_always_throw (fuel : nat) (pa ca : nat) (po : VObject)
    (tag : string) (attrs : gmap string string) (kids : list Tree) (p : nat)
    (node : LiveNode) (w : World) :
  vheap w !! pa = Some po →
  vrep (vheap w) (VRef ca) (Element tag attrs kids) →
  plainNames (Element tag attrs kids) = true →
  height (Element tag attrs kids) ≤ fuel →
  nodes w !! p = Some node →
  if decide (type po = tag)
  then diffAndUpdate (S fuel) (Some (VRef pa)) (Some (VRef ca)) (Some p) w
       = Throw ReferenceError w
  else ∃ cs,
         Forall (λ call, constructive call = true) cs
         ∧ diffAndUpdate (S fuel) (Some (VRef pa)) (Some (VRef ca)) (Some p) w
           = Throw TypeError
               (mkWorld (vheap w)
                  (nodes w ++ build (length (nodes w)) (Element tag attrs kids))
                  (calls w ++ cs)).
Proof.
  destruct w as [h d l]. cbn [vheap nodes calls]. intros Hpa Hv Hplain Hfuel Hp.
  case_decide as Hty.
  - assert (Hca : ∃ vs, h !! ca = Some (mkVObject tag (Some attrs) (ChildList vs)))
      by (inversion Hv; eauto).
    destruct Hca as [vs Hca].
    by eapply (run_diff_same_tag fuel pa ca po _ p node (mkWorld h d l)).
  - by eapply run_diff_tag_change.
Qed.

(** ** Mount composed with the other operations *)


(** X16. Re-render with an absent container does not throw: the removal
    loop is skipped, the subtree of a virtual tree of the data model
    whose names are all valid names in lower case is built detached by
    node-creating calls only, and every live node that existed before is
    unchanged. *)
Theorem reRender_without_container (t : Tree) (fuel : nat) (v : VNode) (w : World) :
  vrep (vheap w) v t →
  plainNames t = true →
  height t ≤ fuel →
  ∃ w' cs,
    reRenderElement fuel v None w = Return tt w'
    ∧ nodes w' = nodes w ++ build (length (nodes w)) t
    ∧ lrep (nodes w') (length (nodes w)) t
    ∧ calls w' = calls w ++ cs
    ∧ Forall (λ call, constructive call = true) cs.
Proof.
  destruct w as [h d l]. cbn [vheap nodes calls]. intros Hv Hplain Hfuel.
  unfold reRenderElement, bind.
  destruct fuel as [| fuel]; [pose proof (size_pos t); destruct t; simpl in Hfuel; lia |].
  cbn [removeAllChildren ret].
  destruct (run_mount_detached t t (S fuel) v h d l Hv Hfuel (liveShape_plain t Hplain))
    as (cs & Hcs & ->).
  eexists. exists cs. split; [reflexivity |]. cbn [nodes calls].
  split; [done |]. split; [| done].
  pose proof (lrep_build t d []) as H. by rewrite app_nil_r in H.
Qed.

(** X17. Mounting a virtual tree of the data model whose names are all
    valid names in lower case into an element container only ever adds
    to the live tree: every display-tree call it makes creates a node,
    sets an attribute or appends a child; it never removes an
    attribute, removes or replaces a child, or clears a node. *)
Theorem mount_calls_constructive (t : Tree) (fuel : nat) (v : VNode) (c : nat)
    (w : World) (tag : string) (a : gmap string string) (ks : list nat) :
  vrep (vheap w) v t →
  plainNames t = true →
  height t ≤ fuel →
  nodes w !! c = Some (mkLiveNode (ElementNode tag) a ks) →
  ∃ w' cs,
    renderVDomToDom fuel v (Some c) w = Return tt w'
    ∧ calls w' = calls w ++ cs
    ∧ Forall (λ call, constructive call = true) cs.
Proof.
  destruct w as [h d l]. cbn [vheap nodes calls]. intros Hv Hplain Hfuel Hc.
  destruct (run_mount_into t t fuel v c h d l tag a ks Hv Hfuel
              (liveShape_plain t Hplain) Hc) as (cs & Hcs & ->).
  eexists. exists cs. split; [reflexivity |]. cbn [calls]. done.
Qed.

(** ** Mount on names that are not valid *)

Lemma writeLowered_invalid entries :
  forallb (λ kv : string * string, validAttributeName kv.1) entries = false →
  ∀ a, writeLowered a entries = None.
Proof.
  induction entries as [| [k v] entries IH]; intros Hall a; [done |].
  simpl in Hall. cbn [writeLowered fst snd].
  destruct (validAttributeName k); [by apply IH | done].
Qed.

Lemma mapM_liveShape_invalid kids :
  Forall (λ t, validNames t = false → liveShape t = None) kids →
  forallb validNames kids = false →
  mapM liveShape kids = None.
Proof.
  induction 1 as [| t kids Ht _ IH]; intros Hall; [done |].
  simpl in Hall. cbn [mapM].
  destruct (validNames t).
  - rewrite (IH Hall). by destruct (liveShape t).
  - by rewrite Ht.
Qed.

Lemma liveShape_invalid t : validNames t = false → liveShape t = None.
Proof.
  induction t as [s | tag attrs kids IH] using Tree_ind'; intros Hv; [done |].
  cbn [validNames] in Hv. cbn [liveShape].
  destruct (validElementName tag); [| done]. cbn [andb] in Hv.
  destruct (forallb (λ kv : string * string, validAttributeName kv.1)
              (map_to_list attrs)) eqn:Hattrs.
  - cbn [andb] in Hv. rewrite (mapM_liveShape_invalid kids IH Hv).
    by destruct (writeLowered ∅ (map_to_list attrs)).
  - by rewrite (writeLowered_invalid _ Hattrs).
Qed.

(** X19. Mounting a virtual tree of the data model one of whose tag or
    attribute names is not a valid name throws an
    [InvalidCharacterError], whatever the container, and leaves every
    virtual object and every live node that existed before as it was:
    nothing is appended to the container. *)
Theorem mount_invalid_name_throws (t : Tree) (fuel : nat) (v : VNode)
    (container : option nat) (w : World) :
  vrep (vheap w) v t →
  validNames t = false →
  height t ≤ fuel →
  ∃ w',
    renderVDomToDom fuel v container w = Throw InvalidCharacterError w'
    ∧ vheap w' = vheap w
    ∧ (∀ id, id < length (nodes w) → nodes w' !! id = nodes w !! id).
Proof.
  destruct w as [h d l]. cbn [vheap nodes]. intros Hv Hbad Hfuel.
  pose proof (run_renderVDomToDom t fuel v container h d l Hv Hfuel) as Hrun.
  rewrite (liveShape_invalid t Hbad) in Hrun. destruct Hrun as (news & cs & ->).
  eexists. split; [reflexivity |]. cbn [vheap nodes]. split; [done |].
  intros id Hid. by apply lookup_app_l.
Qed.

(** ** The constructor composed with mount *)

Lemma vrep_extend h h' t : ∀ v, vrep h v t → vrep (h ++ h') v t.
Proof.
  induction t as [s | tag attrs kids IH] using Tree_ind'; intros v Hv.
  - inversion Hv; subst. constructor.
  - inversion Hv as [| a ? ? vs ? Ha Hvs]; subst.
    econstructor.
    + rewrite lookup_app_l; [exact Ha | by eapply lookup_lt_Some].
    + clear Hv Ha. induction Hvs as [| v t vs kids Hv Hvs IHvs]; [constructor |].
      inversion IH as [| ? ? IHt IHkids]; subst.
      constructor; [by apply IHt | by apply IHvs].
Qed.

(** X18. The constructor feeds mount: if the values [vs] are virtual
    trees describing [kids] and every name of [Element ty attrs kids] is
    a valid name in lower case, then the node built by
    [createVDomNode(ty, attrs, vs)] mounts into an element container as
    a live subtree of shape [Element ty attrs kids], placed after the
    container's earlier children, which keep their shapes. *)
Theorem construct_then_mount (ty : string) (attrs : gmap string string)
    (vs : list VNode) (kids : list Tree) (fuel : nat) (c : nat) (w : World)
    (tag : string) (a : gmap string string) (ks : list nat) (ts : list Tree) :
  Forall2 (vrep (vheap w)) vs kids →
  plainNames (Element ty attrs kids) = true →
  height (Element ty attrs kids) ≤ fuel →
  nodes w !! c = Some (mkLiveNode (ElementNode tag) a ks) →
  Forall2 (lrep (nodes w)) ks ts →
  ∃ v w1 w2,
    createVDomNode ty (Some attrs) (ChildList vs) w = Return v w1
    ∧ renderVDomToDom fuel v (Some c) w1 = Return tt w2
    ∧ content (nodes w2) c (ts ++ [Element ty attrs kids]).
Proof.
  destruct w as [h d l]. cbn [vheap nodes]. intros Hvs Hplain Hfuel Hc Hts.
  pose proof (lookup_lt_Some _ _ _ Hc) as Hlt.
  assert (Hv : vrep (h ++ [mkVObject ty (Some attrs) (ChildList vs)])
                 (VRef (length h)) (Element ty attrs kids)).
  { econstructor; [apply lookup_middle |].
    eapply Forall2_impl; [exact Hvs |]. intros v t. apply vrep_extend. }
  destruct (run_mount_into _ _ fuel _ c _ d l tag a ks Hv Hfuel
              (liveShape_plain _ Hplain) Hc) as (cs & _ & Hrun).
  eexists. eexists. eexists. split; [reflexivity |]. cbn [vheap nodes calls].
  split; [exact Hrun |]. cbn [nodes].
  eexists. split.
  - rewrite lookup_app_l by (by rewrite length_insert).
    by apply list_lookup_insert_eq.
  - cbn [childNodes]. by apply children_after_mount.
Qed.

(** ** The further properties at example pages *)

Lemma mount_extends_content_witness :
  ∃ w',
    renderVDomToDom 3 (VRef 1) (Some 0) busyPage = Return tt w'
    ∧ content (nodes w') 0 (busyContent ++ [usageTree]).
Proof.
  apply (mount_extends_content usageTree 3 (VRef 1) 0 busyPage "body"
           {["lang" := "en"]} [1; 2] busyContent).
  - exact usagePage_vrep.
  - exact usageTree_plain.
  - exact usageTree_height.
  - exact busyPage_container.
  - exact busyPage_content.
Defined.

Lemma mount_accumulates_witness :
  ∃ w1 w2,
    renderVDomToDom 3 (VRef 1) (Some 0) busyPage = Return tt w1
    ∧ renderVDomToDom 3 (VText "bye") (Some 0) w1 = Return tt w2
    ∧ content (nodes w2) 0 (busyContent ++ [usageTree; Text "bye"]).
Proof.
  apply (mount_accumulates usageTree (Text "bye") 3 (VRef 1) (VText "bye") 0
           busyPage "body" {["lang" := "en"]} [1; 2] busyContent).
  - exact usagePage_vrep.
  - constructor.
  - exact usageTree_plain.
  - reflexivity.
  - exact usageTree_height.
  - simpl. lia.
  - exact busyPage_container.
  - exact busyPage_content.
Defined.

Lemma mount_malformed_root_throws_witness :
  ∃ w', renderVDomToDom 1 (VRef 0) (Some 0) brokenPage = Throw TypeError w'.
Proof.
  apply (mount_malformed_root_throws 0 0 (mkVObject "div" None (ChildList []))
           (Some 0) brokenPage).
  - reflexivity.
  - reflexivity.
  - left. reflexivity.
Defined.

Lemma mount_throw_keeps_existing_witness :
  vheap (mkWorld (vheap brokenPage)
           (nodes brokenPage ++ [mkLiveNode (ElementNode "div") ∅ []])
           [CreateElement "div"])
  = vheap brokenPage
  ∧ ∀ id, id < length (nodes brokenPage) →
          nodes (mkWorld (vheap brokenPage)
                   (nodes brokenPage ++ [mkLiveNode (ElementNode "div") ∅ []])
                   [CreateElement "div"]) !! id
          = nodes brokenPage !! id.
Proof.
  apply (mount_throw_keeps_existing 1 (VRef 0) (Some 0) brokenPage TypeError).
  reflexivity.
Defined.

Lemma reRender_bad_tree_empties_container_witness :
  reRenderElement 2 (VRef 0) (Some 0) brokenPage
  = Throw TypeError
      (mkWorld (vheap brokenPage)
         (<[0 := mkLiveNode (ElementNode "body") ∅ []]> (nodes brokenPage)
          ++ [mkLiveNode (ElementNode "div") ∅ []])
         ((calls brokenPage ++ map (RemoveChild 0) [1]) ++ [CreateElement "div"])).
Proof.
  apply (reRender_bad_tree_empties_container 2 0 "div" (ChildList []) 0 brokenPage
           "body" ∅ [1]).
  - reflexivity.
  - reflexivity.
  - reflexivity.
  - simpl. lia.
Defined.

Lemma attributePage_element :
  nodes attributePage !! 0
  = Some (mkLiveNode (ElementNode "div") {["a" := "1"; "b" := "2"]} [1]).
Proof. reflexivity. Qed.

Lemma plain_a_b (new : gmap string string) name :
  is_Some (({["a" := "1"; "b" := "2"]} : gmap string string) !! name) →
  new !! name = None → name ∉ Object_prototype_names.
Proof.
  intros [v Hv] _.
  apply lookup_insert_Some in Hv as [[<- _] | [_ Hv]].
  - apply (bool_decide_unpack _). by vm_compute.
  - apply lookup_singleton_Some in Hv as [<- _].
    apply (bool_decide_unpack _). by vm_compute.
Qed.

Lemma plain_b_c (old : gmap string string) name :
  is_Some (({["b" := "2"; "c" := "3"]} : gmap string string) !! name) →
  old !! name = None → name ∉ Object_prototype_names.
Proof.
  intros [v Hv] _.
  apply lookup_insert_Some in Hv as [[<- _] | [_ Hv]].
  - apply (bool_decide_unpack _). by vm_compute.
  - apply lookup_singleton_Some in Hv as [<- _].
    apply (bool_decide_unpack _). by vm_compute.
Qed.

Lemma attribute_diff_general_witness :
  ∃ w' cs a',
    updateDomAttributes 0 (Some {["a" := "1"; "z" := "0"]}) (Some {["c" := "3"]})
      attributePage = Return tt w'
    ∧ nodes w' = <[0 := mkLiveNode (ElementNode "div") a' [1]]> (nodes attributePage)
    ∧ calls w' = calls attributePage ++ cs
    ∧ (∀ call, call ∈ cs →
         (∃ name, call = RemoveAttribute 0 name)
         ∨ (∃ name value, call = SetAttribute 0 name value))
    ∧ (∀ name, RemoveAttribute 0 name ∈ cs
               ↔ is_Some (({["a" := "1"; "z" := "0"]} : gmap string string) !! name)
                 ∧ ({["c" := "3"]} : gmap string string) !! name = None
                 ∧ name ∉ Object_prototype_names)
    ∧ (∀ name value, SetAttribute 0 name value ∈ cs
                     ↔ ({["c" := "3"]} : gmap string string) !! name = Some value
                       ∧ ({["a" := "1"; "z" := "0"]} : gmap string string) !! name
                         ≠ Some value)
    ∧ (∀ name,
         a' !! name
         = match ({["c" := "3"]} : gmap string string) !! name with
           | Some value =>
               if decide (({["a" := "1"; "z" := "0"]} : gmap string string) !! name
                          = Some value)
               then ({["a" := "1"; "b" := "2"]} : gmap string string) !! name
               else Some value
           | None =>
               if decide (is_Some (({["a" := "1"; "z" := "0"]} : gmap string string)
                                     !! name)
                          ∧ name ∉ Object_prototype_names)
               then None
               else ({["a" := "1"; "b" := "2"]} : gmap string string) !! name
           end).
Proof.
  apply (attribute_diff_general 0 {["a" := "1"; "z" := "0"]} {["c" := "3"]}
           {["a" := "1"; "b" := "2"]} attributePage "div" [1]).
  - reflexivity.
  - reflexivity.
  - exact attributePage_element.
Defined.

Lemma attribute_diff_plain_names_witness :
  ∃ w' cs,
    updateDomAttributes 0 (Some {["a" := "1"; "b" := "2"]})
      (Some {["b" := "2"; "c" := "3"]}) attributePage = Return tt w'
    ∧ nodes w'
      = <[0 := mkLiveNode (ElementNode "div") {["b" := "2"; "c" := "3"]} [1]]>
          (nodes attributePage)
    ∧ calls w' = calls attributePage ++ cs
    ∧ (∀ call, call ∈ cs →
         (∃ name, call = RemoveAttribute 0 name)
         ∨ (∃ name value, call = SetAttribute 0 name value))
    ∧ (∀ name, RemoveAttribute 0 name ∈ cs
               ↔ is_Some (({["a" := "1"; "b" := "2"]} : gmap string string) !! name)
                 ∧ ({["b" := "2"; "c" := "3"]} : gmap string string) !! name = None)
    ∧ (∀ name value, SetAttribute 0 name value ∈ cs
                     ↔ ({["b" := "2"; "c" := "3"]} : gmap string string) !! name
                       = Some value
                       ∧ ({["a" := "1"; "b" := "2"]} : gmap string string) !! name
                         ≠ Some value).
Proof.
  apply (attribute_diff_plain_names 0 {["a" := "1"; "b" := "2"]}
           {["b" := "2"; "c" := "3"]} attributePage "div" [1]).
  - reflexivity.
  - reflexivity.
  - exact attributePage_element.
  - apply plain_a_b.
Defined.

Lemma attribute_diff_self_noop_witness :
  updateDomAttributes 0 (Some {["b" := "2"; "c" := "3"]})
    (Some {["b" := "2"; "c" := "3"]}) attributePage
  = Return tt attributePage.
Proof.
  apply (attribute_diff_self_noop 0 {["b" := "2"; "c" := "3"]} attributePage "div"
           {["a" := "1"; "b" := "2"]} [1]).
  reflexivity.
Defined.

Lemma attribute_diff_undefined_throws_witness :
  updateDomAttributes 0 (Some {["a" := "1"]}) None attributePage
  = Throw TypeError attributePage.
Proof.
  apply (attribute_diff_undefined_throws 0 (Some {["a" := "1"]}) None attributePage).
  right. reflexivity.
Defined.

Lemma attribute_diff_round_trip_witness :
  ∃ w1 w2,
    updateDomAttributes 0 (Some {["a" := "1"; "b" := "2"]})
      (Some {["b" := "2"; "c" := "3"]}) attributePage = Return tt w1
    ∧ updateDomAttributes 0 (Some {["b" := "2"; "c" := "3"]})
        (Some {["a" := "1"; "b" := "2"]}) w1 = Return tt w2
    ∧ nodes w1 !! 0
      = Some (mkLiveNode (ElementNode "div") {["b" := "2"; "c" := "3"]} [1])
    ∧ nodes w2 = nodes attributePage.
Proof.
  apply (attribute_diff_round_trip 0 {["a" := "1"; "b" := "2"]}
           {["b" := "2"; "c" := "3"]} attributePage "div" [1]).
  - reflexivity.
  - reflexivity.
  - reflexivity.
  - apply plain_a_b.
  - apply plain_b_c.
Defined.

Lemma attributePage_children :
  Forall2 (lrep (nodes attributePage)) [1] [Text "hello"].
Proof. repeat constructor. Qed.

Lemma diff_text_case_replaces_witness :
  ∃ w',
    diffAndUpdate 1 None (Some (VText "world")) (Some 0) attributePage = Return tt w'
    ∧ content (nodes w') 0 (Text (toString (VText "world")) :: [])
    ∧ nodes w' !! 1 = nodes attributePage !! 1.
Proof.
  apply (diff_text_case_replaces 0 None (VText "world") 0 attributePage "div"
           {["a" := "1"; "b" := "2"]} 1 [] (Text "hello") []).
  - reflexivity.
  - discriminate.
  - reflexivity.
  - exact attributePage_children.
Defined.

Lemma diff_text_to_element_renders_text_witness :
  ∃ w',
    diffAndUpdate 1 (Some (VText "hello")) (Some (VRef 1)) (Some 0) attributePage
    = Return tt w'
    ∧ content (nodes w') 0 (Text "[object Object]" :: []).
Proof.
  apply (diff_text_to_element_renders_text 0 "hello" 1 0 attributePage "div"
           {["a" := "1"; "b" := "2"]} 1 [] (Text "hello") []).
  - reflexivity.
  - exact attributePage_children.
Defined.

Lemma diff_text_empty_container_throws_witness :
  diffAndUpdate 1 None (Some (VText "world")) (Some 0) usagePage
  = Throw TypeError
      (mkWorld (vheap usagePage)
         (nodes usagePage ++ [mkLiveNode (TextNode (toString (VText "world"))) ∅ []])
         (calls usagePage ++ [CreateTextNode (toString (VText "world"))])).
Proof.
  apply (diff_text_empty_container_throws 0 None (VText "world") 0 usagePage "body" ∅).
  - reflexivity.
  - discriminate.
  - reflexivity.
Defined.

Lemma sharedChildPage_vrep :
  vrep (vheap sharedChildPage) (VRef 2)
    (Element "div" ∅ [Element "span" ∅ []; Text "b"]).
Proof.
  eapply vrep_element; [reflexivity |].
  constructor; [| repeat constructor].
  eapply vrep_element; [reflexivity | constructor].
Qed.

Lemma diff_elements_always_throw_witness :
  diffAndUpdate 3 (Some (VRef 1)) (Some (VRef 2)) (Some 0) sharedChildPage
  = Throw ReferenceError sharedChildPage
  ∧ ∃ cs,
      Forall (λ call, constructive call = true) cs
      ∧ diffAndUpdate 4 (Some (VRef 0)) (Some (VRef 1)) (Some 0) busyPage
        = Throw TypeError
            (mkWorld (vheap busyPage)
               (nodes busyPage ++ build (length (nodes busyPage)) usageTree)
               (calls busyPage ++ cs)).
Proof.
  split.
  - apply (diff_elements_always_throw 2 1 2
             (mkVObject "div" (Some ∅) (ChildList [VRef 0; VText "a"; VText "tail"]))
             "div" ∅ [Element "span" ∅ []; Text "b"] 0
             (mkLiveNode (ElementNode "body") ∅ [1]) sharedChildPage).
    + reflexivity.
    + exact sharedChildPage_vrep.
    + reflexivity.
    + vm_compute. lia.
    + reflexivity.
  - apply (diff_elements_always_throw 3 0 1
             (mkVObject "p" (Some ∅) (ChildList [VText "This is a paragraph."]))
             "div" {["id" := "app"]}
             [Text "Hello, Virtual DOM!"; Element "p" ∅ [Text "This is a paragraph."]]
             0 (mkLiveNode (ElementNode "body") {["lang" := "en"]} [1; 2]) busyPage).
    + reflexivity.
    + exact usagePage_vrep.
    + exact usageTree_plain.
    + exact usageTree_height.
    + reflexivity.
Defined.


Lemma reRender_without_container_witness :
  ∃ w' cs,
    reRenderElement 3 (VRef 1) None busyPage = Return tt w'
    ∧ nodes w' = nodes busyPage ++ build (length (nodes busyPage)) usageTree
    ∧ lrep (nodes w') (length (nodes busyPage)) usageTree
    ∧ calls w' = calls busyPage ++ cs
    ∧ Forall (λ call, constructive call = true) cs.
Proof.
  apply (reRender_without_container usageTree 3 (VRef 1) busyPage).
  - exact usagePage_vrep.
  - exact usageTree_plain.
  - exact usageTree_height.
Defined.

Lemma mount_calls_constructive_witness :
  ∃ w' cs,
    renderVDomToDom 3 (VRef 1) (Some 0) busyPage = Return tt w'
    ∧ calls w' = calls busyPage ++ cs
    ∧ Forall (λ call, constructive call = true) cs.
Proof.
  apply (mount_calls_constructive usageTree 3 (VRef 1) 0 busyPage "body"
           {["lang" := "en"]} [1; 2]).
  - exact usagePage_vrep.
  - exact usageTree_plain.
  - exact usageTree_height.
  - exact busyPage_container.
Defined.

Lemma construct_then_mount_witness :
  ∃ v w1 w2,
    createVDomNode "section" (Some {["id" := "app"]}) (ChildList [VRef 1; VText "end"])
      busyPage = Return v w1
    ∧ renderVDomToDom 4 v (Some 0) w1 = Return tt w2
    ∧ content (nodes w2) 0
        (busyContent ++ [Element "section" {["id" := "app"]} [usageTree; Text "end"]]).
Proof.
  apply (construct_then_mount "section" {["id" := "app"]} [VRef 1; VText "end"]
           [usageTree; Text "end"] 4 0 busyPage "body" {["lang" := "en"]} [1; 2]
           busyContent).
  - constructor; [exact usagePage_vrep | repeat constructor].
  - vm_compute. reflexivity.
  - vm_compute. lia.
  - exact busyPage_container.
  - exact busyPage_content.
Defined.

Lemma mount_invalid_name_throws_witness :
  ∃ w',
    renderVDomToDom 2 (VRef 0) (Some 0)
      (mkWorld (vheap spacedNamePage) (nodes busyPage) [])
    = Throw InvalidCharacterError w'
    ∧ vheap w' = vheap spacedNamePage
    ∧ (∀ id, id < length (nodes busyPage) → nodes w' !! id = nodes busyPage !! id).
Proof.
  apply (mount_invalid_name_throws (Element "div" {["my attr" := "x"]} []) 2 (VRef 0)
           (Some 0) (mkWorld (vheap spacedNamePage) (nodes busyPage) [])).
  - eapply vrep_element; [reflexivity | constructor].
  - vm_compute. reflexivity.
  - vm_compute. lia.
Defined.
